(** * TetrisGame: the state-transition engine, embedded and verified

    A shallow embedding of [src/types.ts] (constants, block constructors,
    state record), of [src/utility.ts] (RNG, bag generator, collision test,
    rotation geometry), of the module that [main.ts] imports as [./state]
    (movement, hold, restart, tick, locking and line clearing; its text
    follows [utility.ts] in the same source file) and of the reducer of
    [src/main.ts], followed by the properties of the specification that
    concern them.

    Conventions of the embedding.
    - A JavaScript [number] that holds an integer is a [Z].  Products that
      leave the 53-bit range are rounded as binary64 does ([round53]); the
      quotient computed by [RNG.scale] is an exact rational ([Q]).
    - Arrays are lists; [arr[i]] is [js_index], which is [None] where
      JavaScript yields [undefined].
    - A function that can throw returns [result]: [Ok v], or [Throw f] with
      the fault [f].
    - Unbounded recursion takes a fuel argument and returns [None] when the
      fuel runs out.
    - The subject [level$] and the document are outside the state; what the
      engine sends to [level$] is given by the [_emits] functions. *)

From Stdlib Require Import ZArith QArith Qround Qabs Lia Lqa String.
From stdpp Require Import base tactics option list gmap.

Local Open Scope Z_scope.

(** ** Outcomes of fallible code *)

(** [TypeError]: the exception JavaScript raises on a property access or a
    call on [undefined].  [Unrepresentable]: JavaScript carries on, but with a
    value the declared TypeScript type does not have (an [undefined] array
    element, a sparse row, a non-index property); the embedding stops
    there. *)
Inductive Fault : Type :=
  | TypeError
  | Unrepresentable.

Inductive result (A : Type) : Type :=
  | Ok (v : A)
  | Throw (f : Fault).
Arguments Ok {A} v.
Arguments Throw {A} f.

Definition bind {A B : Type} (r : result A) (k : A -> result B) : result B :=
  match r with
  | Ok v => k v
  | Throw f => Throw f
  end.

Declare Scope result_scope.
Delimit Scope result_scope with result.
Notation "x <- r ;; k" := (bind r (fun x => k))
  (at level 10, r at level 99, k at level 200) : result_scope.
Local Open Scope result_scope.

(** Sequencing a list of fallible computations, left to right. *)
Fixpoint mapR {A B : Type} (f : A -> result B) (l : list A) : result (list B) :=
  match l with
  | [] => Ok []
  | x :: l' => y <- f x ;; ys <- mapR f l' ;; Ok (y :: ys)
  end.

Fixpoint foldR {A S : Type} (f : S -> A -> result S) (l : list A) (s : S)
  : result S :=
  match l with
  | [] => Ok s
  | x :: l' => s' <- f s x ;; foldR f l' s'
  end.

(** ** JavaScript arrays *)

(** [arr[i]]: [None] stands for [undefined]. *)
Definition js_index {A : Type} (arr : list A) (i : Z) : option A :=
  if i <? 0 then None else arr !! Z.to_nat i.

(** [Array.prototype.slice(start, end)]: a negative bound counts from the
    end of the array, and both bounds are clamped to it. *)
Definition js_clamp (len k : Z) : Z :=
  if k <? 0 then Z.max (len + k) 0 else Z.min k len.

Definition js_slice {A : Type} (arr : list A) (start stop : Z) : list A :=
  let len := Z.of_nat (length arr) in
  let s := js_clamp len start in
  let e := js_clamp len stop in
  take (Z.to_nat (e - s)) (drop (Z.to_nat s) arr).

(** [arr.slice(start)] *)
Definition js_slice_from {A : Type} (arr : list A) (start : Z) : list A :=
  js_slice arr start (Z.of_nat (length arr)).

(** The indices [0 .. n-1] handed to the callbacks of [map] and [reduce]. *)
Definition indices {A : Type} (arr : list A) : list Z :=
  Z.of_nat <$> seq 0 (length arr).

(** ** binary64 arithmetic on integers *)

(** The binary64 value nearest to the integer [n] (ties to even): integers
    below [2^53] in magnitude are exact, larger ones keep 53 significant
    bits.  Overflow to infinity (beyond [2^1024]) is not represented. *)
Definition round53_pos (n : Z) : Z :=
  if n <? 2 ^ 53 then n
  else
    let e := Z.log2 n - 52 in
    let q := Z.shiftr n e in
    let r := Z.land n (Z.ones e) in
    let half := 2 ^ (e - 1) in
    let q' :=
      if r <? half then q
      else if half <? r then q + 1
      else if Z.even q then q else q + 1 in
    Z.shiftl q' e.

Definition round53 (n : Z) : Z := Z.sgn n * round53_pos (Z.abs n).

(** ** RNG *)

Module RNG.

Definition m : Z := 0x80000000.
Definition a : Z := 1738123921.
Definition c : Z := 15959.

(** [(RNG.a * seed + RNG.c) % RNG.m]: the product and the sum are each
    rounded to binary64; [%] is exact and takes the sign of the
    dividend. *)
Definition hash (seed : Z) : Z :=
  Z.rem (round53 (round53 (a * seed) + c)) m.

(** [hash / (RNG.m - 1)], as the exact quotient.  The binary64 quotient
    differs from it by a rounding error that cannot move the index computed
    from it ([randomIndexOf_insensitive]). *)
Definition scale (hash : Z) : Q := inject_Z hash / inject_Z (m - 1).

End RNG.

(** [Math.floor(RNG.scale(RNG.hash(seed)) * n)], the index computation shared
    by [drawFromBag] and [shuffleBag]. *)
Definition randomIndexOf (seed : Z) (n : Z) : Z :=
  Qfloor (RNG.scale (RNG.hash seed) * inject_Z n).

(** ** Configuration ([types.ts]) *)

Module Viewport.
Definition CANVAS_WIDTH : Z := 200.
Definition CANVAS_HEIGHT : Z := 400.
Definition PREVIEW_WIDTH : Z := 160.
Definition PREVIEW_HEIGHT : Z := 80.
End Viewport.

Module Constants.
Definition TICK_RATE_MS : Z := 500.
Definition GRID_WIDTH : Z := 10.
Definition GRID_HEIGHT : Z := 20.
Definition LEVEL_UP_LINES : Z := 5.
End Constants.

Module Block.
Definition WIDTH : Z := Viewport.CANVAS_WIDTH / Constants.GRID_WIDTH.
Definition HEIGHT : Z := Viewport.CANVAS_HEIGHT / Constants.GRID_HEIGHT.
End Block.

(** ** Blocks *)

Inductive BlockType : Type :=
  | SQUARE
  | L_SHAPE1
  | L_SHAPE2
  | T_SHAPE
  | LINE
  | Z_SHAPE1
  | Z_SHAPE2.

#[global] Instance BlockType_eq_dec : EqDecision BlockType.
Proof. solve_decision. Defined.

Record Cell : Type := mkCell { x : Z; y : Z }.

#[global] Instance Cell_eq_dec : EqDecision Cell.
Proof. solve_decision. Defined.

Record FallingBlock : Type := mkFallingBlock {
  cells : list Cell;
  colour : string;
  type : BlockType
}.

Definition squareBlock : FallingBlock := {|
  cells := [
    mkCell (Viewport.CANVAS_WIDTH / 2) 0;
    mkCell (Viewport.CANVAS_WIDTH / 2 - Block.WIDTH) 0;
    mkCell (Viewport.CANVAS_WIDTH / 2) Block.HEIGHT;
    mkCell (Viewport.CANVAS_WIDTH / 2 - Block.WIDTH) Block.HEIGHT ];
  colour := "#FFFF00";
  type := SQUARE |}.

Definition lShapeBlock1 : FallingBlock := {|
  cells := [
    mkCell (Viewport.CANVAS_WIDTH / 2 - 2 * Block.WIDTH) Block.HEIGHT;
    mkCell (Viewport.CANVAS_WIDTH / 2 - Block.WIDTH) Block.HEIGHT;
    mkCell (Viewport.CANVAS_WIDTH / 2 - 2 * Block.WIDTH) 0;
    mkCell (Viewport.CANVAS_WIDTH / 2) Block.HEIGHT ];
  colour := "#0000FF";
  type := L_SHAPE1 |}.

Definition lShapeBlock2 : FallingBlock := {|
  cells := [
    mkCell (Viewport.CANVAS_WIDTH / 2 - 2 * Block.WIDTH) Block.HEIGHT;
    mkCell (Viewport.CANVAS_WIDTH / 2 - Block.WIDTH) Block.HEIGHT;
    mkCell (Viewport.CANVAS_WIDTH / 2) 0;
    mkCell (Viewport.CANVAS_WIDTH / 2) Block.HEIGHT ];
  colour := "#FFA500";
  type := L_SHAPE2 |}.

Definition tShapeBlock : FallingBlock := {|
  cells := [
    mkCell (Viewport.CANVAS_WIDTH / 2 - 2 * Block.WIDTH) Block.HEIGHT;
    mkCell (Viewport.CANVAS_WIDTH / 2 - Block.WIDTH) Block.HEIGHT;
    mkCell (Viewport.CANVAS_WIDTH / 2) Block.HEIGHT;
    mkCell (Viewport.CANVAS_WIDTH / 2 - Block.WIDTH) 0 ];
  colour := "#FF00FF";
  type := T_SHAPE |}.

Definition zShapeBlock1 : FallingBlock := {|
  cells := [
    mkCell (Viewport.CANVAS_WIDTH / 2 - 2 * Block.WIDTH) Block.HEIGHT;
    mkCell (Viewport.CANVAS_WIDTH / 2 - Block.WIDTH) Block.HEIGHT;
    mkCell (Viewport.CANVAS_WIDTH / 2) 0;
    mkCell (Viewport.CANVAS_WIDTH / 2 - Block.WIDTH) 0 ];
  colour := "#00FF00";
  type := Z_SHAPE1 |}.

Definition zShapeBlock2 : FallingBlock := {|
  cells := [
    mkCell (Viewport.CANVAS_WIDTH / 2 - 2 * Block.WIDTH) 0;
    mkCell (Viewport.CANVAS_WIDTH / 2 - Block.WIDTH) Block.HEIGHT;
    mkCell (Viewport.CANVAS_WIDTH / 2) Block.HEIGHT;
    mkCell (Viewport.CANVAS_WIDTH / 2 - Block.WIDTH) 0 ];
  colour := "#FF0000";
  type := Z_SHAPE2 |}.

Definition lineBlock : FallingBlock := {|
  cells := [
    mkCell (Viewport.CANVAS_WIDTH / 2 - Block.WIDTH) 0;
    mkCell (Viewport.CANVAS_WIDTH / 2) 0;
    mkCell (Viewport.CANVAS_WIDTH / 2 + Block.WIDTH) 0;
    mkCell (Viewport.CANVAS_WIDTH / 2 - 2 * Block.WIDTH) 0 ];
  colour := "#00FFFF";
  type := LINE |}.

Definition blockConfigurations (t : BlockType) : FallingBlock :=
  match t with
  | SQUARE => squareBlock
  | L_SHAPE1 => lShapeBlock1
  | L_SHAPE2 => lShapeBlock2
  | T_SHAPE => tShapeBlock
  | Z_SHAPE1 => zShapeBlock1
  | Z_SHAPE2 => zShapeBlock2
  | LINE => lineBlock
  end.

(** ** Grid and state *)

(** The second field is [colour] in the source; it has a name of its own
    here because [FallingBlock] already has a field [colour]. *)
Record BlockCell : Type := mkBlockCell {
  placed : bool;
  cellColour : string
}.

Abbreviation Grid := (list (list BlockCell)).

Record State : Type := mkState {
  gameEnd : bool;
  fallingBlock : FallingBlock;
  placedBlocks : Grid;
  level : Z;
  linesCleared : Z;
  score : Z;
  highScore : Z;
  nextBlock : FallingBlock;
  heldBlock : option FallingBlock;
  blockHeldDuringFall : bool;
  currentSeed : Z;
  currentBag : list BlockType
}.

(** [{ ...s, fallingBlock: b }] *)
Definition withFallingBlock (s : State) (b : FallingBlock) : State :=
  mkState (gameEnd s) b (placedBlocks s) (level s) (linesCleared s) (score s)
    (highScore s) (nextBlock s) (heldBlock s) (blockHeldDuringFall s)
    (currentSeed s) (currentBag s).

(** [{ ...b, cells: cs }] *)
Definition withCells (b : FallingBlock) (cs : list Cell) : FallingBlock :=
  mkFallingBlock cs (colour b) (type b).

(** [new Array(GRID_WIDTH).fill({ placed: false, colour: "" })] *)
Definition emptyRow : list BlockCell :=
  replicate (Z.to_nat Constants.GRID_WIDTH) (mkBlockCell false "").

Definition emptyGrid : Grid :=
  replicate (Z.to_nat Constants.GRID_HEIGHT) emptyRow.

(** ** Bag generator ([utility.ts]) *)

Record DrawResult : Type := mkDrawResult {
  drawnBlock : FallingBlock;
  newSeed : Z;
  newBag : list BlockType
}.

(** [blockConfigurations[type]()] *)
Definition createFallingBlock (t : BlockType) : FallingBlock :=
  blockConfigurations t.

(** [Object.values(BlockType).filter(v => typeof v === "number")]: the enum
    members in declaration order. *)
Definition blockTypes : list BlockType :=
  [SQUARE; L_SHAPE1; L_SHAPE2; T_SHAPE; LINE; Z_SHAPE1; Z_SHAPE2].

(** An array read whose value is kept as an element of a typed array. *)
Definition readElement {A : Type} (arr : list A) (i : Z) : result A :=
  match js_index arr i with
  | Some v => Ok v
  | None => Throw Unrepresentable
  end.

(** The [acc.map((item, index) => ...)] of [shuffleBag]: the elements at
    [remaining - 1] and [randomIndex] change places. *)
Definition swapCallback (acc : list BlockType) (remaining randomIndex : Z)
    (entry : Z * BlockType) : result BlockType :=
  let '(index, item) := entry in
  if index =? remaining - 1 then readElement acc randomIndex
  else if index =? randomIndex then readElement acc (remaining - 1)
  else Ok item.

(** One call of the reducer of [shuffleBag]; the captured [seed] is threaded
    through the accumulator. *)
Definition shuffleStep (st : Z * list BlockType) (currentIndex : Z)
    : result (Z * list BlockType) :=
  let '(seed, acc) := st in
  let remaining := Z.of_nat (length acc) - currentIndex in
  let randomIndex := randomIndexOf seed remaining in
  let seed := RNG.hash seed in
  acc' <- mapR (swapCallback acc remaining randomIndex) (zip (indices acc) acc) ;;
  Ok (seed, acc').

Definition shuffleBag (seed : Z) : result (list BlockType) :=
  st <- foldR shuffleStep (indices blockTypes) (seed, blockTypes) ;;
  Ok (snd st).

Definition drawFromBag (seed : Z) (currentBag : list BlockType)
    : result DrawResult :=
  st <- (if (length currentBag =? 0)%nat
         then bag <- shuffleBag seed ;; Ok (RNG.hash seed, bag)
         else Ok (seed, currentBag)) ;;
  let seed := fst st in
  let currentBag := snd st in
  let randomIndex := randomIndexOf seed (Z.of_nat (length currentBag)) in
  let newSeed := RNG.hash seed in
  let drawnType := js_index currentBag randomIndex in
  let newBag :=
    js_slice currentBag 0 randomIndex ++ js_slice_from currentBag (randomIndex + 1) in
  match drawnType with
  | Some t => Ok (mkDrawResult (createFallingBlock t) newSeed newBag)
  | None => Throw TypeError
  end.

(** [n] successive calls of [drawFromBag], each continuing from the seed and
    the bag returned by the one before; the kinds drawn are collected in
    order, next to the final seed and bag. *)
Fixpoint drawMany (n : nat) (seed : Z) (bag : list BlockType)
    : result (list BlockType * Z * list BlockType) :=
  match n with
  | O => Ok ([], seed, bag)
  | S n' =>
      d <- drawFromBag seed bag ;;
      r <- drawMany n' (newSeed d) (newBag d) ;;
      Ok (type (drawnBlock d) :: fst (fst r), snd (fst r), snd r)
  end.

(** ** Collision test and rotation geometry ([utility.ts]) *)

(** The callback of the [filter] in [isValidPosition]; the chain of [&&]
    yields a falsy [undefined] where a row or a cell is missing. *)
Definition invalidCell (placedBlocks : Grid) (cell : Cell) : bool :=
  if (x cell <? 0) || (x cell >=? Viewport.CANVAS_WIDTH) then true
  else if (y cell <? 0) || (y cell >=? Viewport.CANVAS_HEIGHT) then true
  else
    let yIndex := y cell / Block.HEIGHT in
    let xIndex := x cell / Block.WIDTH in
    match js_index placedBlocks yIndex with
    | None => false
    | Some row =>
        match js_index row xIndex with
        | None => false
        | Some c => placed c
        end
    end.

Definition isValidPosition (block : FallingBlock) (placedBlocks : Grid) : bool :=
  let invalidCells := List.filter (invalidCell placedBlocks) (cells block) in
  (length invalidCells =? 0)%nat.

Definition isHorizontalLineBlock (xCoords : gset Z) : bool :=
  (size xCoords =? 4)%nat.

Definition generateRotatedCells (cells : list Cell) (pivot : Cell)
    (isLineHorizontal : bool) : list Cell :=
  (fun cell =>
     let relativeX := x cell - x pivot in
     let relativeY := y cell - y pivot in
     let newRelativeCoords :=
       if isLineHorizontal
       then mkCell relativeY (- relativeX)
       else mkCell (- relativeY) relativeX in
     mkCell (x pivot + x newRelativeCoords) (y pivot + y newRelativeCoords))
  <$> cells.

(** The cells [cs] moved by [(dx, dy)]; used to state where a block is. *)
Definition translate (dx dy : Z) (cs : list Cell) : list Cell :=
  (fun c => mkCell (x c + dx) (y c + dy)) <$> cs.

(** ** Movement ([./state]) *)

Definition lineBlockWallKickTests : list Cell :=
  [ mkCell 0 0; mkCell (-1) 0; mkCell 2 0; mkCell (-2) 0;
    mkCell 0 1; mkCell 0 (-1); mkCell (-1) 2; mkCell 1 (-2) ].

Definition standardWallKickTests : list Cell :=
  [ mkCell 0 0; mkCell 1 0; mkCell (-1) 0; mkCell 2 0; mkCell (-2) 0 ].

(** The block [kicked] built for a wall-kick test. *)
Definition kickedBy (rotatedBlock : FallingBlock) (test : Cell) : FallingBlock :=
  withCells rotatedBlock
    ((fun cell => mkCell (x cell + x test * Block.WIDTH)
                         (y cell + y test * Block.HEIGHT))
     <$> cells rotatedBlock).

Definition rotateBlock (s : State) : result State :=
  let xCoords : gset Z := list_to_set (x <$> cells (fallingBlock s)) in
  let yCoords : gset Z := list_to_set (y <$> cells (fallingBlock s)) in
  let pivot := js_index (cells (fallingBlock s)) 1 in
  let isLineBlockHorizontal := isHorizontalLineBlock xCoords in
  if (size xCoords =? 2)%nat && (size yCoords =? 2)%nat then Ok s
  else
    (* [pivot.x] is read once per cell: an [undefined] pivot throws as soon
       as there is a cell to rotate. *)
    newCells <- match pivot, cells (fallingBlock s) with
                | Some pivot, cs => Ok (generateRotatedCells cs pivot isLineBlockHorizontal)
                | None, [] => Ok []
                | None, _ :: _ => Throw TypeError
                end ;;
    let rotatedBlock := withCells (fallingBlock s) newCells in
    if isValidPosition rotatedBlock (placedBlocks s)
    then Ok (withFallingBlock s rotatedBlock)
    else
      let testsToUse :=
        if isLineBlockHorizontal
        then lineBlockWallKickTests
        else standardWallKickTests in
      let validKick :=
        List.find (fun test => isValidPosition (kickedBy rotatedBlock test) (placedBlocks s))
                  testsToUse in
      match validKick with
      | Some validKick => Ok (withFallingBlock s (kickedBy rotatedBlock validKick))
      | None => Ok s
      end.

Inductive Direction : Type :=
  | DirLeft
  | DirRight.

(** [rows[yIndex] && rows[yIndex][xIndex].placed], coerced to a boolean: a
    missing row is falsy, a missing cell in a present row throws. *)
Definition placedAt (rows : Grid) (yIndex xIndex : Z) : result bool :=
  match js_index rows yIndex with
  | None => Ok false
  | Some row =>
      match js_index row xIndex with
      | None => Throw TypeError
      | Some c => Ok (placed c)
      end
  end.

(** [arr.filter(f)] for a callback that can throw. *)
Fixpoint filterR {A : Type} (f : A -> result bool) (l : list A) : result (list A) :=
  match l with
  | [] => Ok []
  | v :: l' =>
      b <- f v ;;
      r <- filterR f l' ;;
      Ok (if b then v :: r else r)
  end.

Definition offsetOf (direction : Direction) : Z :=
  match direction with
  | DirLeft => - Block.WIDTH
  | DirRight => Block.WIDTH
  end.

Definition canMove (direction : Direction) (s : State) : result bool :=
  let offsetX := offsetOf direction in
  invalidCells <-
    filterR (fun cell =>
               let newX := x cell + offsetX in
               if (newX <? 0) || (newX >=? Viewport.CANVAS_WIDTH) then Ok true
               else
                 let yIndex := y cell / Block.HEIGHT in
                 let xIndex := newX / Block.WIDTH in
                 placedAt (placedBlocks s) yIndex xIndex)
            (cells (fallingBlock s)) ;;
  Ok (length invalidCells =? 0)%nat.

Definition move (direction : Direction) (s : State) : result State :=
  let offsetX := offsetOf direction in
  b <- canMove direction s ;;
  Ok (if b
      then withFallingBlock s
             (withCells (fallingBlock s)
                ((fun cell => mkCell (x cell + offsetX) (y cell))
                 <$> cells (fallingBlock s)))
      else s).

Definition moveLeft : State -> result State := move DirLeft.
Definition moveRight : State -> result State := move DirRight.

Definition canMoveDown (state : State) : result bool :=
  invalidDownCells <-
    filterR (fun cell =>
               let newY := y cell + Block.HEIGHT in
               if newY >=? Viewport.CANVAS_HEIGHT then Ok true
               else
                 let yIndex := newY / Block.HEIGHT in
                 let xIndex := x cell / Block.WIDTH in
                 placedAt (placedBlocks state) yIndex xIndex)
            (cells (fallingBlock state)) ;;
  Ok (length invalidDownCells =? 0)%nat.

Definition moveBlockDown (state : State) : State :=
  withFallingBlock state
    (withCells (fallingBlock state)
       ((fun cell => mkCell (x cell) (y cell + Block.HEIGHT))
        <$> cells (fallingBlock state))).

(** The block that [move] puts in place of the falling block. *)
Definition shiftedBlock (direction : Direction) (b : FallingBlock) : FallingBlock :=
  withCells b ((fun cell => mkCell (x cell + offsetOf direction) (y cell)) <$> cells b).

(** The block [b] moved down by [k] cell heights. *)
Definition descend (k : nat) (b : FallingBlock) : FallingBlock :=
  withCells b (translate 0 (Z.of_nat k * Block.HEIGHT) (cells b)).

(** Whether the cell one step below [cell] is on the board and unplaced. *)
Definition freeBelow (rows : Grid) (cell : Cell) : bool :=
  (y cell + Block.HEIGHT <? Viewport.CANVAS_HEIGHT)
  && negb match js_index rows ((y cell + Block.HEIGHT) / Block.HEIGHT) with
          | None => false
          | Some row =>
              match js_index row (x cell / Block.WIDTH) with
              | None => false
              | Some c => placed c
              end
          end.

(** ** Locking and line clearing ([./state]) *)

Definition isFullRow (row : list BlockCell) : bool :=
  (length (List.filter placed row) =? length row)%nat.

Definition clearFullRows (s : State) : State :=
  let filteredPlacedBlocks :=
    List.filter (fun row => negb (isFullRow row)) (placedBlocks s) in
  let reducedLinesCleared :=
    Z.of_nat (length (placedBlocks s)) - Z.of_nat (length filteredPlacedBlocks) in
  let emptyRows := replicate (Z.to_nat reducedLinesCleared) emptyRow in
  let updatedPlacedBlocks := emptyRows ++ filteredPlacedBlocks in
  let newLinesCleared := linesCleared s + reducedLinesCleared in
  let levelUp := newLinesCleared >=? Constants.LEVEL_UP_LINES in
  mkState (gameEnd s) (fallingBlock s) updatedPlacedBlocks
    (if levelUp then Z.min (level s + 1) 6 else level s)
    (if levelUp then 0 else newLinesCleared)
    (score s + reducedLinesCleared * 100)
    (highScore s) (nextBlock s) (heldBlock s) (blockHeldDuringFall s)
    (currentSeed s) (currentBag s).

(** [level$.next(Math.min(s.level + 1, 6))] in [clearFullRows]: the level
    published to the tick timer, if any. *)
Definition clearFullRows_emits (s : State) : option Z :=
  let filteredPlacedBlocks :=
    List.filter (fun row => negb (isFullRow row)) (placedBlocks s) in
  let reducedLinesCleared :=
    Z.of_nat (length (placedBlocks s)) - Z.of_nat (length filteredPlacedBlocks) in
  let newLinesCleared := linesCleared s + reducedLinesCleared in
  let levelUp := newLinesCleared >=? Constants.LEVEL_UP_LINES in
  if levelUp then Some (Z.min (level s + 1) 6) else None.

(** [acc[yIndex][xIndex] = v].  A missing row ([acc[yIndex]] is
    [undefined]) throws.  A column inside the row replaces the cell there;
    the column just past the end of the row appends the cell, and the row is
    one longer.  A column further out leaves holes in the row, and a
    negative column sets a property that is no element of the array:
    JavaScript does not throw in these two cases, but no list of cells is
    the row that results, and the embedding stops with [Unrepresentable]. *)
Definition writeCell (acc : Grid) (yIndex xIndex : Z) (v : BlockCell) : result Grid :=
  match js_index acc yIndex with
  | None => Throw TypeError
  | Some row =>
      if (0 <=? xIndex) && (xIndex <? Z.of_nat (length row))
      then Ok (<[Z.to_nat yIndex := <[Z.to_nat xIndex := v]> row]> acc)
      else if xIndex =? Z.of_nat (length row)
      then Ok (<[Z.to_nat yIndex := row ++ [v]]> acc)
      else Throw Unrepresentable
  end.

(** The [reduce] that merges the falling block into the copied grid. *)
Definition stampBlock (block : FallingBlock) (newPlacedBlocks : Grid) : result Grid :=
  foldR (fun acc cell =>
           let yIndex := y cell / Block.HEIGHT in
           let xIndex := x cell / Block.WIDTH in
           writeCell acc yIndex xIndex (mkBlockCell true (colour block)))
        (cells block) newPlacedBlocks.

Definition handleBlockLocking (s : State) : result State :=
  let newPlacedBlocks :=
    (fun row : list BlockCell =>
       (fun cell => mkBlockCell (placed cell) (cellColour cell)) <$> row)
    <$> placedBlocks s in
  updatedPlacedBlocks <- stampBlock (fallingBlock s) newPlacedBlocks ;;
  let gameEnd :=
    existsb (fun cell => y cell / Block.HEIGHT =? 0) (cells (fallingBlock s)) in
  d <- drawFromBag (currentSeed s) (currentBag s) ;;
  let newState :=
    mkState gameEnd (nextBlock s) updatedPlacedBlocks (level s) (linesCleared s)
      (score s) (highScore s) (drawnBlock d) (heldBlock s) false
      (newSeed d) (newBag d) in
  Ok (clearFullRows newState).

(** [moveHardDown] recurses until [canMoveDown] fails; [fuel] bounds the
    depth of the recursion. *)
Fixpoint moveHardDown (fuel : nat) (s : State) : option (result State) :=
  match fuel with
  | O => None
  | S fuel' =>
      match canMoveDown s with
      | Throw f => Some (Throw f)
      | Ok true => moveHardDown fuel' (moveBlockDown s)
      | Ok false => Some (handleBlockLocking s)
      end
  end.

Fixpoint moveGhostBlockToGround (fuel : nat) (state : State) (ghostBlock : FallingBlock)
    : option (result FallingBlock) :=
  match fuel with
  | O => None
  | S fuel' =>
      match canMoveDown (withFallingBlock state ghostBlock) with
      | Throw f => Some (Throw f)
      | Ok true =>
          moveGhostBlockToGround fuel'
            (withFallingBlock state ghostBlock)
            (fallingBlock (moveBlockDown (withFallingBlock state ghostBlock)))
      | Ok false => Some (Ok ghostBlock)
      end
  end.

Definition getGhostBlockPosition (fuel : nat) (state : State)
    : option (result FallingBlock) :=
  let initialGhostBlock :=
    mkFallingBlock (cells (fallingBlock state)) (colour (fallingBlock state))
                   (type (fallingBlock state)) in
  moveGhostBlockToGround fuel state initialGhostBlock.

Definition tick (s : State) : result State :=
  collisions <-
    mapR (fun cell =>
            let newY := y cell + Block.HEIGHT in
            let yIndex := newY / Block.HEIGHT in
            let xIndex := x cell / Block.WIDTH in
            if newY >=? Viewport.CANVAS_HEIGHT then Ok true
            else placedAt (placedBlocks s) yIndex xIndex)
         (cells (fallingBlock s)) ;;
  let collisions := List.filter (fun collision => collision) collisions in
  let collisionDetected := (0 <? length collisions)%nat in
  if collisionDetected
  then handleBlockLocking s
  else Ok (withFallingBlock s
             (withCells (fallingBlock s)
                ((fun cell => mkCell (x cell) (y cell + Block.HEIGHT))
                 <$> cells (fallingBlock s)))).

Definition moveDown (s : State) : result State := tick s.

(** ** Hold and restart ([./state]) *)

Definition holdBlock (s : State) : result State :=
  if blockHeldDuringFall s then Ok s
  else
    let shouldUseHeldBlock := bool_decide (is_Some (heldBlock s)) in
    let newFallingBlockType :=
      match heldBlock s with
      | Some held => type held
      | None => type (nextBlock s)
      end in
    let newFallingBlock := createFallingBlock newFallingBlockType in
    d <- (if shouldUseHeldBlock
          then Ok (mkDrawResult (nextBlock s) (currentSeed s) (currentBag s))
          else drawFromBag (currentSeed s) (currentBag s)) ;;
    Ok (mkState (gameEnd s) newFallingBlock (placedBlocks s) (level s)
          (linesCleared s) (score s) (highScore s) (drawnBlock d)
          (Some (createFallingBlock (type (fallingBlock s)))) true
          (newSeed d) (newBag d)).

(** ** Initial state ([types.ts]) *)

(** The module-level draws of [types.ts] and the record built from them.
    Note that [currentBag] is a fresh [shuffleBag(seed2)], not [bag2]. *)
Definition initialDraws : result State :=
  bag0 <- shuffleBag 159 ;;
  d1 <- drawFromBag 159 bag0 ;;
  d2 <- drawFromBag (newSeed d1) (newBag d1) ;;
  bag <- shuffleBag (newSeed d2) ;;
  Ok (mkState false (drawnBlock d1) emptyGrid 1 0 0 0 (drawnBlock d2) None false
        (newSeed d2) bag).

(** The value of [initialState]; [initialState_drawn] below checks it against
    [initialDraws]. *)
Definition initialState : State :=
  mkState false tShapeBlock emptyGrid 1 0 0 0 lShapeBlock2 None false 98648576
    [L_SHAPE2; SQUARE; T_SHAPE; LINE; Z_SHAPE2; L_SHAPE1; Z_SHAPE1].

(** [level$.next(1)] in [restartGame].  The removal of the [holdCube-i]
    elements from the document has no counterpart in the state. *)
Definition restartGame_emits (s : State) : option Z :=
  if gameEnd s then Some 1 else None.

Definition restartGame (s : State) : result State :=
  if gameEnd s then
    d1 <- drawFromBag (currentSeed s) (currentBag s) ;;
    d2 <- drawFromBag (newSeed d1) (newBag d1) ;;
    Ok (mkState (gameEnd initialState) (drawnBlock d1) (placedBlocks initialState)
          (level initialState) (linesCleared initialState) (score initialState)
          (Z.max (score s) (highScore s)) (drawnBlock d2) None false
          (newSeed d2) (newBag d2))
  else Ok s.

(** ** The reducer ([main.ts]) *)

(** The functions merged into [actions$]. *)
Inductive Action : Type :=
  | MoveLeft
  | MoveRight
  | MoveDown
  | Tick
  | RotateBlock
  | MoveHardDown
  | RestartGame
  | HoldBlock.

#[global] Instance Action_eq_dec : EqDecision Action.
Proof. solve_decision. Defined.

Definition applyAction (fuel : nat) (action : Action) (s : State)
    : option (result State) :=
  match action with
  | MoveLeft => Some (moveLeft s)
  | MoveRight => Some (moveRight s)
  | MoveDown => Some (moveDown s)
  | Tick => Some (tick s)
  | RotateBlock => Some (rotateBlock s)
  | MoveHardDown => moveHardDown fuel s
  | RestartGame => Some (restartGame s)
  | HoldBlock => Some (holdBlock s)
  end.

(** The accumulator function of the [scan] over [actions$]. *)
Definition reducer (fuel : nat) (state : State) (action : Action)
    : option (result State) :=
  if gameEnd state then
    if bool_decide (action = RestartGame)
    then applyAction fuel action state
    else Some (Ok state)
  else applyAction fuel action state.

(** The [scan] itself: the reducer folded over the actions as they arrive. *)
Fixpoint runActions (fuel : nat) (actions : list Action) (state : State)
    : option (result State) :=
  match actions with
  | [] => Some (Ok state)
  | action :: rest =>
      match reducer fuel state action with
      | Some (Ok state') => runActions fuel rest state'
      | other => other
      end
  end.

(** ** Well-formed and reachable states *)

Definition onBoard (c : Cell) : Prop :=
  0 <= x c < Viewport.CANVAS_WIDTH /\ 0 <= y c < Viewport.CANVAS_HEIGHT.

(** What every state of a running game satisfies: an unsigned 31-bit seed, a
    grid of [GRID_HEIGHT] rows of [GRID_WIDTH] cells, a falling block of four
    cells on the board, which is a moved copy of the spawn square when its
    kind is [SQUARE], and a next block still at its spawn position. *)
Record wellFormed (s : State) : Prop := mkWellFormed {
  wf_seed : 0 <= currentSeed s < RNG.m;
  wf_height : length (placedBlocks s) = Z.to_nat Constants.GRID_HEIGHT;
  wf_width :
    Forall (fun row => length row = Z.to_nat Constants.GRID_WIDTH) (placedBlocks s);
  wf_falling : Forall onBoard (cells (fallingBlock s));
  wf_cells : length (cells (fallingBlock s)) = 4%nat;
  wf_square :
    type (fallingBlock s) = SQUARE ->
    exists dx dy, cells (fallingBlock s) = translate dx dy (cells squareBlock);
  wf_next : nextBlock s = createFallingBlock (type (nextBlock s))
}.

(** The states the reducer can produce from [initialState]. *)
Inductive reachable : State -> Prop :=
  | reachable_initial : reachable initialState
  | reachable_step (fuel : nat) (s s' : State) (action : Action) :
      reachable s ->
      reducer fuel s action = Some (Ok s') ->
      reachable s'.

(** ** Sample states *)

(** A board whose bottom row is complete, with the initial block still at
    its spawn position. *)
Definition bottomRowFull : State :=
  mkState false tShapeBlock
    (replicate 19 emptyRow ++ [replicate 10 (mkBlockCell true "#00FFFF")])
    1 0 0 0 lShapeBlock2 None false 98648576
    [L_SHAPE2; SQUARE; T_SHAPE; LINE; Z_SHAPE2; L_SHAPE1; Z_SHAPE1].

(** The initial state after the game has ended with 300 points. *)
Definition endedGame : State :=
  mkState true tShapeBlock emptyGrid 2 3 300 100 lShapeBlock2
    (Some squareBlock) true 98648576 [LINE; SQUARE].

(** Two records that no game produces: a falling block with a cell above the
    board, and a block tagged [SQUARE] that has the cells of the line. *)
Definition aboveBoard : State :=
  withFallingBlock initialState
    (withCells tShapeBlock (translate 0 (-40) (cells tShapeBlock))).

Definition squareTaggedLine : State :=
  withFallingBlock initialState
    (withCells squareBlock (translate 0 100 (cells lineBlock))).

(** The T one column past the right edge of the board: its right arm has
    [x = CANVAS_WIDTH]. *)
Definition pastRightEdge : FallingBlock :=
  withCells tShapeBlock (translate 100 0 (cells tShapeBlock)).

(** A running game whose stack reaches the falling block at its spawn
    position: one placed cell in the third row, below the right arm of the T. *)
Definition toppedOut : State :=
  mkState false tShapeBlock
    (<[2%nat := <[5%nat := mkBlockCell true "purple"]> emptyRow]> emptyGrid)
    1 0 0 0 lShapeBlock2 None false 98648576 [LINE; SQUARE].

(** A line lying in the middle of the empty board. *)
Definition lineInPlay : State :=
  withFallingBlock initialState
    (withCells lineBlock (translate 0 100 (cells lineBlock))).


(** [n] ticks in a row, as the timer delivers them. *)
Fixpoint ticks (n : nat) (s : State) : result State :=
  match n with
  | O => Ok s
  | S n' => s' <- tick s ;; ticks n' s'
  end.

(** [rows[yIndex]?.[xIndex]]: the cell of the grid at a row and column
    index, if there is one. *)
Definition gridCell (rows : Grid) (yIndex xIndex : Z) : option BlockCell :=
  match js_index rows yIndex with
  | Some row => js_index row xIndex
  | None => None
  end.

(** Whether [cell] occupies the grid position [(yIndex, xIndex)]. *)
Definition occupies (yIndex xIndex : Z) (cell : Cell) : bool :=
  (y cell / Block.HEIGHT =? yIndex) && (x cell / Block.WIDTH =? xIndex).

(** The grid has a row for [cell], and the row a column for it. *)
Definition inRow (rows : Grid) (cell : Cell) : Prop :=
  exists row,
    js_index rows (y cell / Block.HEIGHT) = Some row
    /\ 0 <= x cell / Block.WIDTH < Z.of_nat (length row).

(** ** What [main.ts] shows of the state *)

(** [Constants.TICK_RATE_MS - level * 70], the period in milliseconds that
    [tick$] gives its [interval]. *)
Definition adjustedRate (level : Z) : Z := Constants.TICK_RATE_MS - level * 70.

(** [Math.max(s.score, s.highScore)], the number written into the
    high-score field by [render]. *)
Definition displayedHighScore (s : State) : Z := Z.max (score s) (highScore s).

(** The book-keeping of a running game: a level from 1 to 6, fewer cleared
    lines on the accumulator than a level takes, scores that are
    non-negative multiples of 100, and a bag of distinct kinds. *)
Record accounted (s : State) : Prop := mkAccounted {
  acc_level : 1 <= level s <= 6;
  acc_lines : 0 <= linesCleared s < Constants.LEVEL_UP_LINES;
  acc_score : 0 <= score s /\ (100 | score s);
  acc_highScore : 0 <= highScore s /\ (100 | highScore s);
  acc_bag : NoDup (currentBag s)
}.

(** * Properties *)

(** ** binary64 rounding of integers *)

Lemma round53_pos_small (n : Z) : n < 2 ^ 53 -> round53_pos n = n.
Proof.
  intros Hn. unfold round53_pos.
  destruct (Z.ltb_spec n (2 ^ 53)); [reflexivity | lia].
Qed.

(** Above [2^53] the rounded value is a multiple of [2^e] with [e >= 1] and
    does not fall below [2^53]. *)
Lemma round53_pos_large (n : Z) :
  2 ^ 53 <= n -> Z.even (round53_pos n) = true /\ 2 ^ 53 <= round53_pos n.
Proof.
  intros Hn. unfold round53_pos.
  destruct (Z.ltb_spec n (2 ^ 53)) as [|_]; [lia|].
  assert (Hlog : 53 <= Z.log2 n) by (apply Z.log2_le_pow2; lia).
  set (e := Z.log2 n - 52).
  assert (He : 1 <= e) by (unfold e; lia).
  assert (Hq : 2 ^ 52 <= Z.shiftr n e).
  { rewrite Z.shiftr_div_pow2 by lia.
    apply Z.div_le_lower_bound; [apply Z.pow_pos_nonneg; lia|].
    rewrite Z.mul_comm, <- Z.pow_add_r by lia.
    replace (52 + e) with (Z.log2 n) by (unfold e; lia).
    apply Z.log2_spec. lia. }
  set (q := Z.shiftr n e) in *.
  set (q' := if Z.land n (Z.ones e) <? 2 ^ (e - 1) then q
             else if 2 ^ (e - 1) <? Z.land n (Z.ones e) then q + 1
             else if Z.even q then q else q + 1).
  assert (Hq' : q <= q').
  { unfold q'. repeat case_match; lia. }
  rewrite Z.shiftl_mul_pow2 by lia.
  split.
  - replace e with (1 + (e - 1)) by lia.
    rewrite Z.pow_add_r, Z.pow_1_r by lia.
    rewrite Z.mul_assoc, (Z.mul_comm q' 2), <- Z.mul_assoc.
    apply Z.even_even.
  - assert (2 ^ 1 <= 2 ^ e) by (apply Z.pow_le_mono_r; lia).
    change (2 ^ 53) with (2 ^ 52 * 2 ^ 1). nia.
Qed.

Lemma round53_nonneg (n : Z) :
  0 <= n -> round53 n = round53_pos n.
Proof.
  intros Hn. unfold round53.
  destruct (Z.eq_dec n 0) as [->|]; [reflexivity|].
  rewrite Z.sgn_pos, Z.abs_eq by lia. lia.
Qed.

Lemma round53_exact (n : Z) : 0 <= n < 2 ^ 53 -> round53 n = n.
Proof.
  intros Hn. rewrite round53_nonneg by lia. apply round53_pos_small. lia.
Qed.

Lemma round53_even (n : Z) :
  2 ^ 53 <= n -> Z.even (round53 n) = true /\ 2 ^ 53 <= round53 n.
Proof.
  intros Hn. rewrite round53_nonneg by lia. now apply round53_pos_large.
Qed.

Lemma round53_ge0 (n : Z) : 0 <= n -> 0 <= round53 n.
Proof.
  intros Hn. destruct (Z_lt_le_dec n (2 ^ 53)).
  - rewrite round53_exact; lia.
  - pose proof (round53_even n ltac:(lia)). lia.
Qed.


Lemma initialState_drawn : initialDraws = Ok initialState.
Proof. vm_compute. reflexivity. Qed.

(** ** RNG *)

(** The multiplier is invertible modulo [2^31], so exactly one residue class
    of seeds is sent to [m - 1] by the exact congruence. *)
Lemma lcg_preimage_of_max (s k : Z) :
  RNG.a * s + RNG.c = RNG.m * k + (RNG.m - 1) ->
  exists u, s = 181070632 + RNG.m * u.
Proof.
  unfold RNG.a, RNG.c, RNG.m. intros H.
  exists (560944753 * k - 454015794 * s + 560940584). lia.
Qed.

(** The hash of an unsigned 31-bit seed never reaches [m - 1]: an exact
    result would need the seed 181070632, whose product with [a] is already
    beyond [2^53], and a rounded result is even. *)
Lemma hash_range (seed : Z) :
  0 <= seed < RNG.m -> 0 <= RNG.hash seed < RNG.m - 1.
Proof.
  intros Hs. unfold RNG.hash.
  set (v := round53 (round53 (RNG.a * seed) + RNG.c)).
  assert (Hprod : 0 <= RNG.a * seed) by (unfold RNG.a; lia).
  assert (Hr1 : 0 <= round53 (RNG.a * seed)) by (apply round53_ge0; lia).
  assert (Hv : 0 <= v) by (apply round53_ge0; unfold RNG.c; lia).
  rewrite Z.rem_mod_nonneg by (unfold RNG.m; lia).
  pose proof (Z.mod_pos_bound v RNG.m ltac:(unfold RNG.m; lia)) as Hb.
  split; [lia|].
  enough (v mod RNG.m <> RNG.m - 1) by lia.
  intros Hmax.
  destruct (Z_lt_le_dec (round53 (RNG.a * seed) + RNG.c) (2 ^ 53)) as [Hsmall|Hbig].
  - (* no rounding at all: the congruence is exact *)
    assert (Hp : RNG.a * seed < 2 ^ 53).
    { destruct (Z_lt_le_dec (RNG.a * seed) (2 ^ 53)) as [|Hge]; [assumption|].
      pose proof (round53_even _ Hge). unfold RNG.c in *. lia. }
    assert (Hv' : v = RNG.a * seed + RNG.c).
    { unfold v. rewrite (round53_exact (RNG.a * seed)) in * by lia.
      apply round53_exact. unfold RNG.c in *; lia. }
    rewrite Hv' in Hmax.
    pose proof (Z.div_mod (RNG.a * seed + RNG.c) RNG.m ltac:(unfold RNG.m; lia)) as Hdm.
    rewrite Hmax in Hdm.
    destruct (lcg_preimage_of_max seed _ Hdm) as [u Hu].
    unfold RNG.a, RNG.m in *. lia.
  - (* the sum was rounded to an even number *)
    destruct (round53_even _ Hbig) as [Heven _]. fold v in Heven.
    assert (Hodd : Z.even (v mod RNG.m) = false) by (rewrite Hmax; reflexivity).
    pose proof (Z.div_mod v RNG.m ltac:(unfold RNG.m; lia)) as Hdm.
    rewrite Hdm in Heven.
    rewrite Z.even_add, Z.even_mul, Hodd in Heven.
    discriminate Heven.
Qed.

(** [Math.floor(hash / (m - 1) * n)] is integer division of [hash * n]. *)
Lemma randomIndexOf_div (seed n : Z) :
  randomIndexOf seed n = (RNG.hash seed * n) / (RNG.m - 1).
Proof.
  unfold randomIndexOf, RNG.scale.
  change (RNG.m - 1) with (Z.pos 2147483647).
  assert (E : (inject_Z (RNG.hash seed) / inject_Z (Z.pos 2147483647) * inject_Z n
               == (RNG.hash seed * n) # 2147483647)%Q).
  { unfold Qeq, Qdiv, Qmult, Qinv, inject_Z. simpl. lia. }
  rewrite (Qfloor_comp _ _ E). reflexivity.
Qed.

Lemma randomIndexOf_range (seed n : Z) :
  0 <= seed < RNG.m -> 0 < n -> 0 <= randomIndexOf seed n < n.
Proof.
  intros Hs Hn. rewrite randomIndexOf_div.
  pose proof (hash_range seed Hs) as Hh.
  unfold RNG.m in *. split.
  - apply Z.div_pos; nia.
  - apply Z.div_lt_upper_bound; nia.
Qed.

Lemma scale_range (seed : Z) :
  0 <= seed < RNG.m ->
  (0 <= RNG.scale (RNG.hash seed) /\ RNG.scale (RNG.hash seed) < 1)%Q.
Proof.
  intros Hs. pose proof (hash_range seed Hs) as Hh.
  unfold RNG.scale. change (RNG.m - 1) with (Z.pos 2147483647) in *.
  unfold Qle, Qlt, Qdiv, Qmult, Qinv, inject_Z. simpl. lia.
Qed.

(** For a hash strictly between [0] and [m - 1] and a count of at most 7,
    [hash * n / (m - 1)] is not an integer: [m - 1] has no factor in
    common with [1 .. 7]. *)
Lemma scaled_not_integer (h n : Z) :
  0 < h < RNG.m - 1 -> 1 <= n <= 7 ->
  1 <= (h * n) mod (RNG.m - 1) <= RNG.m - 2.
Proof.
  change (RNG.m - 1) with 2147483647. change (RNG.m - 2) with 2147483646.
  intros Hh Hn.
  pose proof (Z.mod_pos_bound (h * n) 2147483647 ltac:(lia)) as Hb.
  enough ((h * n) mod 2147483647 <> 0) by lia.
  intros H0.
  pose proof (Z.div_mod (h * n) 2147483647 ltac:(lia)) as Hdm.
  rewrite H0 in Hdm.
  set (j := h * n / 2147483647) in *.
  assert (n = 1 \/ n = 2 \/ n = 3 \/ n = 4 \/ n = 5 \/ n = 6 \/ n = 7)
    as Hcases by lia.
  destruct Hcases as [->|[->|[->|[->|[->|[->| ->]]]]]]; lia.
Qed.

Lemma floor_between (p : Q) (k : Z) :
  (inject_Z k <= p)%Q -> (p < inject_Z (k + 1))%Q -> Qfloor p = k.
Proof.
  intros Hlo Hhi.
  pose proof (Qfloor_le p) as Hf1. pose proof (Qlt_floor p) as Hf2.
  assert (H1 : (inject_Z (Qfloor p) < inject_Z (k + 1))%Q)
    by (eapply Qle_lt_trans; eauto).
  assert (H2 : (inject_Z k < inject_Z (Qfloor p + 1))%Q)
    by (eapply Qle_lt_trans; eauto).
  rewrite <- Zlt_Qlt in H1, H2. lia.
Qed.

(** The index does not depend on how the quotient and the product are
    rounded: any [q] within [2^-40] of [scale(hash(seed))] and any [p]
    within [2^-40] of [q * n] (binary64 is closer than [2^-50] on these
    magnitudes, and exact on zero) have the floor that [randomIndexOf]
    computes from the exact values. *)
Lemma randomIndexOf_insensitive (seed n : Z) (q p : Q) :
  0 <= seed < RNG.m -> 1 <= n <= 7 ->
  (Qabs (q - RNG.scale (RNG.hash seed)) <= 1 # 2 ^ 40)%Q ->
  (Qabs (p - q * inject_Z n) <= 1 # 2 ^ 40)%Q ->
  (RNG.hash seed = 0 -> (p == 0)%Q) ->
  Qfloor p = randomIndexOf seed n.
Proof.
  intros Hs Hn Hq Hp H0. rewrite randomIndexOf_div.
  pose proof (hash_range seed Hs) as Hh. set (h := RNG.hash seed) in *.
  destruct (Z.eq_dec h 0) as [Hz|Hnz].
  - rewrite Hz, (Qfloor_comp _ _ (H0 Hz)). reflexivity.
  - pose proof (scaled_not_integer h n ltac:(lia) Hn) as Hr.
    pose proof (Z.div_mod (h * n) (RNG.m - 1) ltac:(unfold RNG.m; lia)) as Hdm.
    set (k := h * n / (RNG.m - 1)) in *. set (r := (h * n) mod (RNG.m - 1)) in *.
    apply Qabs_Qle_condition in Hq, Hp.
    unfold RNG.scale in Hq. change (RNG.m - 1) with 2147483647 in *.
    change (RNG.m - 2) with 2147483646 in *.
    assert (HQ : (inject_Z h * inject_Z n == 2147483647 * inject_Z k + inject_Z r)%Q).
    { rewrite <- inject_Z_mult, Hdm, inject_Z_plus, inject_Z_mult. reflexivity. }
    assert (Hr1 : (1 <= inject_Z r)%Q)
      by (change 1%Q with (inject_Z 1); rewrite <- Zle_Qle; lia).
    assert (Hr2 : (inject_Z r <= 2147483646)%Q)
      by (change 2147483646%Q with (inject_Z 2147483646); rewrite <- Zle_Qle; lia).
    change (inject_Z 2147483647) with (2147483647%Q) in Hq.
    change (1 # 2 ^ 40)%Q with (1 # 1099511627776)%Q in *.
    assert (n = 1 \/ n = 2 \/ n = 3 \/ n = 4 \/ n = 5 \/ n = 6 \/ n = 7)
      as Hcases by lia.
    clearbody h k r. clear H0 Hdm.
    assert (Hv : (inject_Z h / 2147483647 * 2147483647 == inject_Z h)%Q)
      by (field; discriminate).
    set (v := (inject_Z h / 2147483647)%Q) in *. clearbody v.
    apply floor_between; [|rewrite inject_Z_plus];
      destruct Hcases as [->|[->|[->|[->|[->|[->| ->]]]]]];
      repeat match goal with
             | H : context [inject_Z (Zpos ?c)] |- _ =>
                 change (inject_Z (Zpos c)) with (Zpos c # 1)%Q in H
             | |- context [inject_Z (Zpos ?c)] =>
                 change (inject_Z (Zpos c)) with (Zpos c # 1)%Q
             end;
      lra.
Qed.

(** ** Results and arrays *)

Lemma mapR_ok {A B : Type} (f : A -> result B) (g : A -> B) (l : list A) :
  (forall v, v ∈ l -> f v = Ok (g v)) -> mapR f l = Ok (g <$> l).
Proof.
  induction l as [|v l IH]; intros Hf; [reflexivity|].
  simpl. rewrite Hf by left. simpl.
  rewrite IH by (intros w Hw; apply Hf; now right). reflexivity.
Qed.

Lemma js_index_lookup {A : Type} (arr : list A) (i : Z) :
  0 <= i -> js_index arr i = arr !! Z.to_nat i.
Proof.
  intros Hi. unfold js_index. destruct (Z.ltb_spec i 0); [lia | reflexivity].
Qed.

Lemma js_index_in_range {A : Type} (arr : list A) (i : Z) :
  0 <= i < Z.of_nat (length arr) -> exists v, js_index arr i = Some v.
Proof.
  intros Hi. rewrite js_index_lookup by lia.
  apply lookup_lt_is_Some_2. lia.
Qed.

Lemma js_slice_prefix {A : Type} (arr : list A) (i : Z) :
  0 <= i <= Z.of_nat (length arr) -> js_slice arr 0 i = take (Z.to_nat i) arr.
Proof.
  intros Hi. unfold js_slice, js_clamp.
  destruct (Z.ltb_spec 0 0); [lia|]. destruct (Z.ltb_spec i 0); [lia|].
  rewrite Z.min_l, Z.min_l by lia. rewrite Z.sub_0_r. reflexivity.
Qed.

Lemma js_slice_suffix {A : Type} (arr : list A) (i : Z) :
  0 <= i <= Z.of_nat (length arr) -> js_slice_from arr i = drop (Z.to_nat i) arr.
Proof.
  intros Hi. unfold js_slice_from, js_slice, js_clamp.
  destruct (Z.ltb_spec i 0); [lia|].
  destruct (Z.ltb_spec (Z.of_nat (length arr)) 0); [lia|].
  rewrite Z.min_l, Z.min_l by lia.
  apply take_ge. rewrite length_drop. lia.
Qed.

Lemma lookup_indices_zip {A : Type} (arr : list A) (i : nat) :
  zip (indices arr) arr !! i = (fun v => (Z.of_nat i, v)) <$> arr !! i.
Proof.
  unfold indices. rewrite lookup_zip_with, list_lookup_fmap.
  destruct (arr !! i) as [v|] eqn:E.
  - rewrite lookup_seq_lt by (eapply lookup_lt_Some; eauto). reflexivity.
  - rewrite lookup_seq_ge by (apply lookup_ge_None; assumption). reflexivity.
Qed.

(** ** Bag generator *)

(** One swap of [shuffleBag] with both indices inside the array yields a
    permutation of the accumulator. *)
Lemma swap_permutes (acc : list BlockType) (remaining randomIndex : Z) :
  0 <= randomIndex < remaining ->
  remaining <= Z.of_nat (length acc) ->
  exists acc',
    mapR (swapCallback acc remaining randomIndex) (zip (indices acc) acc) = Ok acc'
    /\ acc' ≡ₚ acc.
Proof.
  intros Hri Hrem.
  destruct (js_index_in_range acc randomIndex ltac:(lia)) as [aR HaR].
  destruct (js_index_in_range acc (remaining - 1) ltac:(lia)) as [aL HaL].
  set (g := fun entry : Z * BlockType =>
              if fst entry =? remaining - 1 then aR
              else if fst entry =? randomIndex then aL
              else snd entry).
  exists (g <$> zip (indices acc) acc). split.
  - apply mapR_ok. intros [k v] _. unfold swapCallback, readElement, g. simpl.
    rewrite HaR, HaL. repeat case_match; reflexivity.
  - rewrite js_index_lookup in HaR, HaL by lia.
    enough (E : g <$> zip (indices acc) acc
                = <[Z.to_nat randomIndex := aL]>
                    (<[Z.to_nat (remaining - 1) := aR]> acc))
      by (rewrite E; now apply Permutation_insert_swap).
    apply list_eq. intros i.
    rewrite list_lookup_fmap, lookup_indices_zip.
    destruct (acc !! i) as [v|] eqn:Ei; simpl.
    + assert (Hi : (i < length acc)%nat) by (eapply lookup_lt_Some; eauto).
      unfold g; simpl.
      destruct (Z.eqb_spec (Z.of_nat i) (remaining - 1)) as [E1|N1].
      * assert (i = Z.to_nat (remaining - 1)) as -> by lia.
        destruct (Z.eq_dec randomIndex (remaining - 1)) as [->|Nri].
        -- rewrite list_lookup_insert_eq by (rewrite length_insert; lia).
           congruence.
        -- rewrite list_lookup_insert_ne by lia.
           rewrite list_lookup_insert_eq by lia. reflexivity.
      * destruct (Z.eqb_spec (Z.of_nat i) randomIndex) as [E2|N2].
        -- assert (i = Z.to_nat randomIndex) as -> by lia.
           rewrite list_lookup_insert_eq by (rewrite length_insert; lia).
           reflexivity.
        -- rewrite !list_lookup_insert_ne by lia. now rewrite Ei.
    + symmetry. apply lookup_ge_None. rewrite !length_insert.
      now apply lookup_ge_None.
Qed.

Lemma shuffleStep_permutes (seed : Z) (acc : list BlockType) (currentIndex : Z) :
  0 <= seed < RNG.m ->
  0 <= currentIndex < Z.of_nat (length acc) ->
  exists acc',
    shuffleStep (seed, acc) currentIndex = Ok (RNG.hash seed, acc') /\ acc' ≡ₚ acc.
Proof.
  intros Hs Hc. unfold shuffleStep.
  set (remaining := Z.of_nat (length acc) - currentIndex).
  pose proof (randomIndexOf_range seed remaining Hs ltac:(unfold remaining; lia)) as Hri.
  destruct (swap_permutes acc remaining _ Hri ltac:(unfold remaining; lia))
    as (acc' & -> & Hperm).
  exists acc'. split; [reflexivity | assumption].
Qed.

Lemma hash_seed (seed : Z) : 0 <= seed < RNG.m -> 0 <= RNG.hash seed < RNG.m.
Proof. intros Hs. pose proof (hash_range seed Hs). lia. Qed.

Lemma shuffleFold_permutes (idxs : list Z) (seed : Z) (acc : list BlockType) :
  0 <= seed < RNG.m ->
  Forall (fun i => 0 <= i < Z.of_nat (length acc)) idxs ->
  exists st,
    foldR shuffleStep idxs (seed, acc) = Ok st /\ snd st ≡ₚ acc.
Proof.
  revert seed acc. induction idxs as [|i idxs IH]; intros seed acc Hs Hall.
  - exists (seed, acc). split; reflexivity.
  - inversion Hall as [|? ? Hi His]; subst. cbn [foldR].
    destruct (shuffleStep_permutes seed acc i Hs Hi) as (acc' & -> & Hperm).
    cbn [bind].
    destruct (IH (RNG.hash seed) acc' (hash_seed _ Hs)) as (st & Hst & Hp).
    { rewrite (Permutation_length Hperm). assumption. }
    exists st. split; [assumption | now rewrite Hp].
Qed.

Lemma shuffleBag_permutes (seed : Z) :
  0 <= seed < RNG.m ->
  exists bag, shuffleBag seed = Ok bag /\ bag ≡ₚ blockTypes.
Proof.
  intros Hs. unfold shuffleBag.
  destruct (shuffleFold_permutes (indices blockTypes) seed blockTypes Hs)
    as (st & -> & Hp).
  { repeat constructor; simpl; lia. }
  exists (snd st). split; [reflexivity | assumption].
Qed.

Lemma createFallingBlock_type (t : BlockType) : type (createFallingBlock t) = t.
Proof. destruct t; reflexivity. Qed.

(** A draw from a non-empty bag: the element at the computed index leaves
    the bag, the rest keeps its order. *)
Lemma drawFromBag_nonempty (seed : Z) (bag : list BlockType) :
  0 <= seed < RNG.m -> bag <> [] ->
  exists (i : nat) (t : BlockType),
    Z.of_nat i = randomIndexOf seed (Z.of_nat (length bag))
    /\ bag !! i = Some t
    /\ drawFromBag seed bag
       = Ok (mkDrawResult (createFallingBlock t) (RNG.hash seed)
               (take i bag ++ drop (S i) bag)).
Proof.
  intros Hs Hne.
  assert (Hlen : (0 < length bag)%nat) by (destruct bag; [congruence | simpl; lia]).
  pose proof (randomIndexOf_range seed (Z.of_nat (length bag)) Hs ltac:(lia)) as Hri.
  set (ri := randomIndexOf seed (Z.of_nat (length bag))) in *.
  destruct (js_index_in_range bag ri Hri) as [t Ht].
  exists (Z.to_nat ri), t. split; [lia|]. split.
  - now rewrite <- js_index_lookup by lia.
  - unfold drawFromBag.
    destruct (Nat.eqb_spec (length bag) 0) as [E|_]; [lia|]. simpl.
    fold ri. rewrite Ht.
    rewrite js_slice_prefix, js_slice_suffix by lia.
    replace (Z.to_nat (ri + 1)) with (S (Z.to_nat ri)) by lia. reflexivity.
Qed.

Lemma drawFromBag_empty (seed : Z) :
  0 <= seed < RNG.m ->
  exists bag,
    shuffleBag seed = Ok bag /\ bag ≡ₚ blockTypes
    /\ drawFromBag seed [] = drawFromBag (RNG.hash seed) bag.
Proof.
  intros Hs. destruct (shuffleBag_permutes seed Hs) as (bag & Hbag & Hp).
  exists bag. split; [assumption|]. split; [assumption|].
  assert (Hlen : length bag = 7%nat) by (rewrite (Permutation_length Hp); reflexivity).
  unfold drawFromBag. cbn [length Nat.eqb]. rewrite Hbag. cbn [bind].
  destruct (Nat.eqb_spec (length bag) 0) as [E|_]; [lia | reflexivity].
Qed.

(** On an unsigned 31-bit seed a draw always completes, whatever the bag,
    and hands back such a seed. *)
Lemma drawFromBag_succeeds (seed : Z) (bag : list BlockType) :
  0 <= seed < RNG.m ->
  exists d, drawFromBag seed bag = Ok d
            /\ 0 <= newSeed d < RNG.m
            /\ drawnBlock d = createFallingBlock (type (drawnBlock d)).
Proof.
  intros Hs. destruct bag as [|k bag].
  - destruct (drawFromBag_empty seed Hs) as (bag' & _ & Hp & ->).
    assert (Hne' : bag' <> []).
    { intros ->. apply Permutation_length in Hp. discriminate. }
    destruct (drawFromBag_nonempty _ bag' (hash_seed _ Hs) Hne') as (i & t & _ & _ & ->).
    eexists; split; [reflexivity|]. simpl.
    split; [now apply hash_seed, hash_seed | now rewrite createFallingBlock_type].
  - destruct (drawFromBag_nonempty seed (k :: bag) Hs) as (i & t & _ & _ & ->);
      [discriminate|].
    eexists; split; [reflexivity|]. simpl.
    split; [now apply hash_seed | now rewrite createFallingBlock_type].
Qed.

Lemma drawMany_exhausts (bag : list BlockType) (seed : Z) :
  0 <= seed < RNG.m ->
  exists kinds seed',
    drawMany (length bag) seed bag = Ok (kinds, seed', [])
    /\ kinds ≡ₚ bag
    /\ 0 <= seed' < RNG.m.
Proof.
  remember (length bag) as n eqn:Hn. revert bag seed Hn.
  induction n as [|n IH]; intros bag seed Hn Hs.
  - destruct bag; [|discriminate]. exists [], seed. repeat split; auto; lia.
  - assert (Hne : bag <> []) by (destruct bag; [discriminate | congruence]).
    destruct (drawFromBag_nonempty seed bag Hs Hne) as (i & t & _ & Hi & Hd).
    cbn [drawMany]. rewrite Hd. cbn [bind newSeed newBag drawnBlock].
    rewrite <- delete_take_drop.
    destruct (IH (delete i bag) (RNG.hash seed)) as (kinds & seed' & Hrec & Hp & Hs').
    { rewrite length_delete by eauto. lia. }
    { now apply hash_seed. }
    rewrite Hrec. cbn [bind fst snd]. rewrite createFallingBlock_type.
    exists (t :: kinds), seed'. split; [reflexivity|]. split; [|assumption].
    rewrite Hp. symmetry. now apply delete_Permutation.
Qed.

(** ** Locking and line clearing *)

Lemma filter_length_split {A : Type} (p : A -> bool) (l : list A) :
  length l
  = (length (List.filter p l) + length (List.filter (fun v => negb (p v)) l))%nat.
Proof.
  induction l as [|v l IH]; [reflexivity|].
  simpl. destruct (p v); simpl; lia.
Qed.

Lemma filter_length_bound {A : Type} (p : A -> bool) (l : list A) :
  (length (List.filter p l) <= length l)%nat.
Proof. pose proof (filter_length_split p l). lia. Qed.

(** A row counts as full exactly when every one of its cells is placed. *)
Lemma isFullRow_spec (row : list BlockCell) :
  isFullRow row = true <-> Forall (fun c => placed c = true) row.
Proof.
  unfold isFullRow. induction row as [|c row IH]; simpl.
  - split; [constructor | reflexivity].
  - destruct (placed c) eqn:Ec; simpl.
    + rewrite IH. split; [now constructor | now inversion 1].
    + pose proof (filter_length_bound placed row) as Hle. split.
      * intros H%Nat.eqb_eq. lia.
      * inversion 1; congruence.
Qed.

Lemma copy_row (row : list BlockCell) :
  (fun cell => mkBlockCell (placed cell) (cellColour cell)) <$> row = row.
Proof.
  induction row as [|[p c] row IH]; [reflexivity|].
  rewrite fmap_cons, IH. reflexivity.
Qed.

Lemma copy_grid (g : Grid) :
  (fun row : list BlockCell =>
     (fun cell => mkBlockCell (placed cell) (cellColour cell)) <$> row) <$> g = g.
Proof.
  induction g as [|row g IH]; [reflexivity|].
  rewrite fmap_cons, IH, copy_row. reflexivity.
Qed.

Lemma clearFullRows_grid (s : State) :
  placedBlocks (clearFullRows s)
  = replicate (length (List.filter isFullRow (placedBlocks s))) emptyRow
    ++ List.filter (fun row => negb (isFullRow row)) (placedBlocks s).
Proof.
  unfold clearFullRows; simpl. f_equal. f_equal.
  rewrite (filter_length_split isFullRow (placedBlocks s)) at 1. lia.
Qed.

Lemma clearFullRows_score (s : State) :
  score (clearFullRows s)
  = score s + Z.of_nat (length (List.filter isFullRow (placedBlocks s))) * 100.
Proof.
  unfold clearFullRows; simpl. f_equal. f_equal.
  rewrite (filter_length_split isFullRow (placedBlocks s)) at 1. lia.
Qed.

Lemma clearFullRows_height (s : State) :
  length (placedBlocks (clearFullRows s)) = length (placedBlocks s).
Proof.
  rewrite clearFullRows_grid, length_app, length_replicate.
  symmetry. apply filter_length_split.
Qed.

(** What [handleBlockLocking] returns, spelled out. *)
Lemma handleBlockLocking_Ok (s s' : State) :
  handleBlockLocking s = Ok s' ->
  exists g d,
    stampBlock (fallingBlock s) (placedBlocks s) = Ok g
    /\ drawFromBag (currentSeed s) (currentBag s) = Ok d
    /\ s' = clearFullRows
              (mkState
                 (existsb (fun cell => y cell / Block.HEIGHT =? 0)
                          (cells (fallingBlock s)))
                 (nextBlock s) g (level s) (linesCleared s) (score s)
                 (highScore s) (drawnBlock d) (heldBlock s) false
                 (newSeed d) (newBag d)).
Proof.
  unfold handleBlockLocking. rewrite copy_grid.
  destruct (stampBlock (fallingBlock s) (placedBlocks s)) as [g|] eqn:Eg;
    [|discriminate].
  cbn [bind].
  destruct (drawFromBag (currentSeed s) (currentBag s)) as [d|] eqn:Ed;
    [|discriminate].
  cbn [bind]. intros [= <-]. exists g, d. repeat split.
Qed.

(** ** Movement *)

Lemma filterR_ok {A : Type} (f : A -> result bool) (g : A -> bool) (l : list A) :
  (forall v, v ∈ l -> f v = Ok (g v)) -> filterR f l = Ok (List.filter g l).
Proof.
  induction l as [|v l IH]; intros Hf; [reflexivity|].
  cbn [filterR List.filter]. rewrite Hf by left. cbn [bind].
  rewrite IH by (intros w Hw; apply Hf; now right). reflexivity.
Qed.

Lemma filterR_none {A : Type} (f : A -> result bool) (l r : list A) :
  filterR f l = Ok r -> length r = 0%nat -> forall v, v ∈ l -> f v = Ok false.
Proof.
  revert r. induction l as [|w l IH]; intros r Hr Hlen v Hv.
  - inversion Hv.
  - cbn [filterR] in Hr.
    destruct (f w) as [b|] eqn:Ew; [|discriminate]. cbn [bind] in Hr.
    destruct (filterR f l) as [r'|] eqn:Er; [|discriminate]. cbn [bind] in Hr.
    injection Hr as <-.
    destruct b; [discriminate|].
    apply elem_of_cons in Hv as [->|Hv]; [assumption|].
    now apply (IH r').
Qed.

Lemma filter_fmap_length {A B : Type} (p : B -> bool) (h : A -> B) (l : list A) :
  length (List.filter p (h <$> l)) = length (List.filter (fun v => p (h v)) l).
Proof.
  induction l as [|v l IH]; [reflexivity|].
  rewrite fmap_cons. cbn [List.filter]. destruct (p (h v)); simpl; now rewrite IH.
Qed.

Lemma filter_none_forallb {A : Type} (p : A -> bool) (l : list A) :
  (length (List.filter (fun v => negb (p v)) l) =? 0)%nat = forallb p l.
Proof.
  induction l as [|v l IH]; [reflexivity|].
  cbn [List.filter forallb]. destruct (p v); cbn; auto.
Qed.

Lemma withFallingBlock_same (s : State) : withFallingBlock s (fallingBlock s) = s.
Proof. destruct s; reflexivity. Qed.

Lemma cell_index_range (v : Z) :
  0 <= v < Viewport.CANVAS_WIDTH -> 0 <= v / Block.WIDTH < Constants.GRID_WIDTH.
Proof.
  change Viewport.CANVAS_WIDTH with 200. change Block.WIDTH with 20.
  change Constants.GRID_WIDTH with 10. intros Hv. split.
  - apply Z.div_pos; lia.
  - apply Z.div_lt_upper_bound; lia.
Qed.

Lemma row_index_range (v : Z) :
  0 <= v < Viewport.CANVAS_HEIGHT -> 0 <= v / Block.HEIGHT < Constants.GRID_HEIGHT.
Proof.
  change Viewport.CANVAS_HEIGHT with 400. change Block.HEIGHT with 20.
  change Constants.GRID_HEIGHT with 20. intros Hv. split.
  - apply Z.div_pos; lia.
  - apply Z.div_lt_upper_bound; lia.
Qed.

(** In a row of full width, the guarded read of [isValidPosition] and the
    unguarded one of [canMove], [canMoveDown] and [tick] agree. *)
Lemma placedAt_guarded (rows : Grid) (yIndex xIndex : Z) :
  Forall (fun row => Constants.GRID_WIDTH <= Z.of_nat (length row)) rows ->
  0 <= xIndex < Constants.GRID_WIDTH ->
  placedAt rows yIndex xIndex
  = Ok match js_index rows yIndex with
       | None => false
       | Some row =>
           match js_index row xIndex with
           | None => false
           | Some c => placed c
           end
       end.
Proof.
  intros Hrows Hx. unfold placedAt.
  destruct (js_index rows yIndex) as [row|] eqn:Er; [|reflexivity].
  assert (Hrow : Constants.GRID_WIDTH <= Z.of_nat (length row)).
  { unfold js_index in Er. destruct (yIndex <? 0); [discriminate|].
    rewrite Forall_forall in Hrows. apply Hrows.
    eapply list_elem_of_lookup_2; eauto. }
  destruct (js_index_in_range row xIndex ltac:(lia)) as [c ->]. reflexivity.
Qed.

Lemma shiftedBlock_cells (direction : Direction) (b : FallingBlock) :
  cells (shiftedBlock direction b) = translate (offsetOf direction) 0 (cells b).
Proof.
  unfold shiftedBlock, translate. cbn [cells withCells].
  apply list_fmap_ext. intros _ c _. f_equal. lia.
Qed.

Lemma canMove_isValidPosition (direction : Direction) (s : State) :
  Forall (fun c => 0 <= y c < Viewport.CANVAS_HEIGHT) (cells (fallingBlock s)) ->
  Forall (fun row => Constants.GRID_WIDTH <= Z.of_nat (length row)) (placedBlocks s) ->
  canMove direction s
  = Ok (isValidPosition (shiftedBlock direction (fallingBlock s)) (placedBlocks s)).
Proof.
  intros Hy Hrows. unfold canMove, isValidPosition, shiftedBlock.
  cbn [cells withCells]. rewrite filter_fmap_length.
  erewrite filterR_ok; [reflexivity|].
  intros cell Hcell. cbv beta. unfold invalidCell. cbn [x y].
  rewrite Forall_forall in Hy. specialize (Hy cell Hcell).
  destruct ((x cell + offsetOf direction <? 0)
            || (x cell + offsetOf direction >=? Viewport.CANVAS_WIDTH)) eqn:Ex;
    [reflexivity|].
  apply orb_false_iff in Ex as [Ex1 Ex2].
  destruct (Z.ltb_spec (y cell) 0) as [|_]; [lia|].
  destruct (Z.geb_spec (y cell) Viewport.CANVAS_HEIGHT) as [|_]; [lia|].
  cbn [orb]. apply placedAt_guarded; [assumption|].
  apply cell_index_range.
  apply Z.ltb_ge in Ex1. rewrite Z.geb_leb in Ex2. apply Z.leb_gt in Ex2. lia.
Qed.

(** ** Descent: hard drop and ghost *)

Lemma translate_zero (cs : list Cell) : translate 0 0 cs = cs.
Proof.
  unfold translate. induction cs as [|[cx cy] cs IH]; [reflexivity|].
  rewrite fmap_cons, IH. cbn [x y]. now rewrite !Z.add_0_r.
Qed.

Lemma translate_translate (dx dy ex ey : Z) (cs : list Cell) :
  translate ex ey (translate dx dy cs) = translate (dx + ex) (dy + ey) cs.
Proof.
  unfold translate. rewrite <- list_fmap_compose.
  apply list_fmap_ext. intros _ c _. cbn. f_equal; lia.
Qed.

Lemma descend_zero (b : FallingBlock) : descend 0 b = b.
Proof.
  unfold descend. cbn [Z.of_nat]. rewrite Z.mul_0_l, translate_zero.
  destruct b; reflexivity.
Qed.

Lemma moveBlockDown_descend (st : State) (b : FallingBlock) :
  moveBlockDown (withFallingBlock st b) = withFallingBlock st (descend 1 b).
Proof.
  unfold moveBlockDown, descend, translate. cbn [fallingBlock withFallingBlock].
  f_equal. f_equal. apply list_fmap_ext. intros _ c _.
  change (Z.of_nat 1 * Block.HEIGHT) with Block.HEIGHT. f_equal. lia.
Qed.

Lemma descend_succ (k : nat) (b : FallingBlock) :
  descend k (descend 1 b) = descend (S k) b.
Proof.
  unfold descend. cbn [cells withCells colour type].
  rewrite translate_translate. f_equal. f_equal; lia.
Qed.

Lemma ghost_unfold (fuel : nat) (st : State) (g : FallingBlock) :
  moveGhostBlockToGround (S fuel) st g
  = match canMoveDown (withFallingBlock st g) with
    | Throw f => Some (Throw f)
    | Ok true =>
        moveGhostBlockToGround fuel (withFallingBlock st g)
          (fallingBlock (moveBlockDown (withFallingBlock st g)))
    | Ok false => Some (Ok g)
    end.
Proof. reflexivity. Qed.

(** The state handed down by [moveGhostBlockToGround] differs from the
    original only in a falling block that is overwritten at once. *)
Lemma ghost_state_irrelevant (fuel : nat) (st : State) (b g : FallingBlock) :
  moveGhostBlockToGround fuel (withFallingBlock st b) g
  = moveGhostBlockToGround fuel st g.
Proof. destruct fuel; reflexivity. Qed.

(** [moveHardDown] follows the recursion of [moveGhostBlockToGround] step
    for step and locks where the ghost comes to rest. *)
Lemma moveHardDown_ghost (fuel : nat) (st : State) (g : FallingBlock) :
  moveHardDown fuel (withFallingBlock st g)
  = match moveGhostBlockToGround fuel st g with
    | None => None
    | Some (Throw f) => Some (Throw f)
    | Some (Ok ghost) => Some (handleBlockLocking (withFallingBlock st ghost))
    end.
Proof.
  revert st g. induction fuel as [|fuel IH]; intros st g; [reflexivity|].
  cbn [moveHardDown moveGhostBlockToGround].
  destruct (canMoveDown (withFallingBlock st g)) as [[|]|f]; try reflexivity.
  rewrite moveBlockDown_descend. cbn [fallingBlock withFallingBlock].
  rewrite IH, ghost_state_irrelevant. reflexivity.
Qed.

Lemma moveHardDown_locks_ghost (fuel : nat) (s : State) :
  moveHardDown fuel s
  = match moveGhostBlockToGround fuel s (fallingBlock s) with
    | None => None
    | Some (Throw f) => Some (Throw f)
    | Some (Ok ghost) => Some (handleBlockLocking (withFallingBlock s ghost))
    end.
Proof.
  rewrite <- moveHardDown_ghost. now rewrite withFallingBlock_same.
Qed.

(** The ghost is the falling block moved down as long as [canMoveDown]
    allows. *)
Lemma ghost_is_descent (fuel : nat) (st : State) (g ghost : FallingBlock) :
  moveGhostBlockToGround fuel st g = Some (Ok ghost) ->
  exists k : nat,
    ghost = descend k g
    /\ (forall j : nat, (j < k)%nat ->
          canMoveDown (withFallingBlock st (descend j g)) = Ok true)
    /\ canMoveDown (withFallingBlock st ghost) = Ok false.
Proof.
  revert st g. induction fuel as [|fuel IH]; intros st g; [discriminate|].
  cbn [moveGhostBlockToGround].
  destruct (canMoveDown (withFallingBlock st g)) as [[|]|f] eqn:Ec;
    [| |discriminate].
  - rewrite moveBlockDown_descend. cbn [fallingBlock withFallingBlock].
    rewrite ghost_state_irrelevant.
    intros (k & -> & Hlt & Hstop)%IH. exists (S k).
    rewrite descend_succ in *.
    split; [reflexivity|]. split; [|assumption].
    intros [|j] Hj.
    + now rewrite descend_zero.
    + specialize (Hlt j ltac:(lia)).
      now rewrite descend_succ in Hlt.
  - intros [= <-]. exists 0%nat. rewrite descend_zero.
    split; [reflexivity|]. split; [intros j Hj; lia | assumption].
Qed.

Lemma ghost_fuel_mono (fuel extra : nat) (st : State) (g : FallingBlock)
    (r : result FallingBlock) :
  moveGhostBlockToGround fuel st g = Some r ->
  moveGhostBlockToGround (fuel + extra) st g = Some r.
Proof.
  revert st g. induction fuel as [|fuel IH]; intros st g; [discriminate|].
  cbn [moveGhostBlockToGround Nat.add].
  destruct (canMoveDown (withFallingBlock st g)) as [[|]|f]; auto.
Qed.

(** Where the columns are on the board and the rows have full width,
    [canMoveDown] does not throw and tests [freeBelow] on every cell. *)
Lemma canMoveDown_spec (s : State) :
  Forall (fun c => 0 <= x c < Viewport.CANVAS_WIDTH) (cells (fallingBlock s)) ->
  Forall (fun row => Constants.GRID_WIDTH <= Z.of_nat (length row)) (placedBlocks s) ->
  canMoveDown s = Ok (forallb (freeBelow (placedBlocks s)) (cells (fallingBlock s))).
Proof.
  intros Hx Hrows. unfold canMoveDown.
  erewrite (filterR_ok _ (fun c => negb (freeBelow (placedBlocks s) c))).
  - cbn [bind]. f_equal. apply filter_none_forallb.
  - intros c Hc. cbv beta. unfold freeBelow.
    rewrite Forall_forall in Hx. specialize (Hx c Hc).
    destruct (Z.geb_spec (y c + Block.HEIGHT) Viewport.CANVAS_HEIGHT) as [Hge|Hlt].
    + destruct (Z.ltb_spec (y c + Block.HEIGHT) Viewport.CANVAS_HEIGHT); [lia|].
      reflexivity.
    + destruct (Z.ltb_spec (y c + Block.HEIGHT) Viewport.CANVAS_HEIGHT); [|lia].
      rewrite placedAt_guarded by (auto using cell_index_range).
      cbn [andb]. now rewrite negb_involutive.
Qed.

Lemma canMoveDown_true_height (s : State) (c : Cell) :
  canMoveDown s = Ok true -> c ∈ cells (fallingBlock s) ->
  y c + Block.HEIGHT < Viewport.CANVAS_HEIGHT.
Proof.
  unfold canMoveDown. intros H Hc.
  destruct (filterR _ (cells (fallingBlock s))) as [r|] eqn:Er; [|discriminate].
  cbn [bind] in H. injection H as H. apply Nat.eqb_eq in H.
  pose proof (filterR_none _ _ _ Er H c Hc) as Hcell. cbv beta in Hcell.
  destruct (Z.geb_spec (y c + Block.HEIGHT) Viewport.CANVAS_HEIGHT); [discriminate | lia].
Qed.

(** The descent ends: a block with at least one cell cannot pass the bottom
    of the board. *)
Lemma ghost_terminates (n : nat) (st : State) (g : FallingBlock) (c0 : Cell) :
  c0 ∈ cells g ->
  Viewport.CANVAS_HEIGHT - y c0 <= Block.HEIGHT * Z.of_nat n ->
  exists r, moveGhostBlockToGround (S n) st g = Some r.
Proof.
  revert g c0. induction n as [|n IH]; intros g c0 Hc0 Hy;
    rewrite ghost_unfold;
    destruct (canMoveDown (withFallingBlock st g)) as [[|]|f] eqn:Ec; eauto.
  - pose proof (canMoveDown_true_height _ c0 Ec Hc0).
    change Block.HEIGHT with 20 in *. lia.
  - pose proof (canMoveDown_true_height _ c0 Ec Hc0) as Hlt.
    rewrite moveBlockDown_descend. cbn [fallingBlock withFallingBlock].
    rewrite ghost_state_irrelevant.
    apply (IH (descend 1 g) (mkCell (x c0 + 0) (y c0 + Z.of_nat 1 * Block.HEIGHT))).
    + unfold descend, translate. cbn [cells withCells].
      apply (list_elem_of_fmap_2 (fun c => mkCell (x c + 0) (y c + Z.of_nat 1 * Block.HEIGHT))).
      assumption.
    + cbn [y]. change Block.HEIGHT with 20 in *. lia.
Qed.

Lemma descend_columns (k : nat) (g : FallingBlock) :
  Forall (fun c => 0 <= x c < Viewport.CANVAS_WIDTH) (cells g) ->
  Forall (fun c => 0 <= x c < Viewport.CANVAS_WIDTH) (cells (descend k g)).
Proof.
  intros H. unfold descend, translate. cbn [cells withCells].
  apply Forall_fmap. eapply Forall_impl; [exact H|].
  intros c Hc. unfold compose. cbn [x]. cbv beta in Hc. lia.
Qed.

Lemma ghost_no_throw (fuel : nat) (st : State) (g : FallingBlock) (f : Fault) :
  Forall (fun c => 0 <= x c < Viewport.CANVAS_WIDTH) (cells g) ->
  Forall (fun row => Constants.GRID_WIDTH <= Z.of_nat (length row)) (placedBlocks st) ->
  moveGhostBlockToGround fuel st g <> Some (Throw f).
Proof.
  intros Hx Hrows. revert g Hx. induction fuel as [|fuel IH]; intros g Hx;
    [discriminate|].
  rewrite ghost_unfold, canMoveDown_spec by assumption.
  destruct (forallb _ _); [|discriminate].
  rewrite moveBlockDown_descend. cbn [fallingBlock withFallingBlock].
  rewrite ghost_state_irrelevant. apply IH. now apply descend_columns.
Qed.

Lemma getGhostBlockPosition_unfold (fuel : nat) (s : State) :
  getGhostBlockPosition fuel s = moveGhostBlockToGround fuel s (fallingBlock s).
Proof. unfold getGhostBlockPosition. destruct (fallingBlock s); reflexivity. Qed.

(** With enough fuel the ghost is found, and more fuel does not change it. *)
Lemma ghost_reaches_ground (s : State) :
  cells (fallingBlock s) <> [] ->
  Forall (fun c => 0 <= x c < Viewport.CANVAS_WIDTH) (cells (fallingBlock s)) ->
  Forall (fun row => Constants.GRID_WIDTH <= Z.of_nat (length row)) (placedBlocks s) ->
  exists (n : nat) (ghost : FallingBlock),
    forall fuel, (n <= fuel)%nat -> getGhostBlockPosition fuel s = Some (Ok ghost).
Proof.
  intros Hne Hx Hrows.
  destruct (cells (fallingBlock s)) as [|c0 cs] eqn:Ec; [congruence|].
  set (n := Z.to_nat (Viewport.CANVAS_HEIGHT - y c0)).
  destruct (ghost_terminates n s (fallingBlock s) c0) as [r Hr].
  { rewrite Ec. left. }
  { unfold n. change Block.HEIGHT with 20. lia. }
  destruct r as [ghost|f].
  - exists (S n), ghost. intros fuel Hfuel.
    rewrite getGhostBlockPosition_unfold.
    replace fuel with (S n + (fuel - S n))%nat by lia.
    now apply ghost_fuel_mono.
  - exfalso. apply (ghost_no_throw (S n) s (fallingBlock s) f); [|assumption..].
    now rewrite Ec.
Qed.

(** ** Rotation *)

Lemma size_pair (a b : Z) : a <> b -> size ({[a]} ∪ {[b]} : gset Z) = 2%nat.
Proof.
  intros Hab. rewrite size_union.
  - now rewrite !size_singleton.
  - apply disjoint_singleton_l. now apply not_elem_of_singleton.
Qed.

Lemma list_to_set_two (a b c d : Z) :
  (c = a \/ c = b) -> (d = a \/ d = b) ->
  (list_to_set [a; b; c; d] : gset Z) = {[a]} ∪ {[b]}.
Proof.
  intros Hc Hd. apply set_eq. intros z. cbn [list_to_set foldr].
  rewrite !elem_of_union, !elem_of_singleton, elem_of_empty.
  intuition congruence.
Qed.

(** The square block, wherever it has been moved to, spans two columns and
    two rows. *)
Lemma square_spans (dx dy : Z) :
  size (list_to_set (x <$> translate dx dy (cells squareBlock)) : gset Z) = 2%nat
  /\ size (list_to_set (y <$> translate dx dy (cells squareBlock)) : gset Z) = 2%nat.
Proof.
  split.
  - change (x <$> translate dx dy (cells squareBlock))
      with [100 + dx; 80 + dx; 100 + dx; 80 + dx].
    rewrite list_to_set_two by auto. apply size_pair. lia.
  - change (y <$> translate dx dy (cells squareBlock))
      with [0 + dy; 0 + dy; 20 + dy; 20 + dy].
    assert (list_to_set [0 + dy; 0 + dy; 20 + dy; 20 + dy]
            = (list_to_set [0 + dy; 20 + dy; 0 + dy; 20 + dy] : gset Z)) as ->.
    { apply set_eq. intros z. cbn [list_to_set foldr].
      rewrite !elem_of_union, !elem_of_singleton, elem_of_empty. tauto. }
    rewrite list_to_set_two by auto. apply size_pair. lia.
Qed.

Lemma rotateBlock_square (s : State) (dx dy : Z) :
  cells (fallingBlock s) = translate dx dy (cells squareBlock) ->
  rotateBlock s = Ok s.
Proof.
  intros Hc. unfold rotateBlock. rewrite Hc.
  destruct (square_spans dx dy) as [-> ->]. reflexivity.
Qed.

(** ** The invariant of the reducer *)

Lemma spawn_onBoard (t : BlockType) :
  Forall onBoard (cells (createFallingBlock t))
  /\ length (cells (createFallingBlock t)) = 4%nat.
Proof.
  split; [|destruct t; reflexivity].
  destruct t; repeat constructor; vm_compute; congruence.
Qed.

Lemma spawn_square (t : BlockType) :
  type (createFallingBlock t) = SQUARE ->
  exists dx dy, cells (createFallingBlock t) = translate dx dy (cells squareBlock).
Proof.
  rewrite createFallingBlock_type. intros ->. exists 0, 0.
  now rewrite translate_zero.
Qed.

Lemma wellFormed_rows (s : State) :
  wellFormed s ->
  Forall (fun row => Constants.GRID_WIDTH <= Z.of_nat (length row)) (placedBlocks s).
Proof.
  intros Hwf. eapply Forall_impl; [apply (wf_width s Hwf)|].
  intros row Hrow. cbv beta in Hrow. rewrite Hrow. reflexivity.
Qed.

Lemma wellFormed_columns (s : State) :
  wellFormed s ->
  Forall (fun c => 0 <= x c < Viewport.CANVAS_WIDTH) (cells (fallingBlock s)).
Proof.
  intros Hwf. eapply Forall_impl; [apply (wf_falling s Hwf)|]. now intros c [? ?].
Qed.

Lemma wellFormed_heights (s : State) :
  wellFormed s ->
  Forall (fun c => 0 <= y c < Viewport.CANVAS_HEIGHT) (cells (fallingBlock s)).
Proof.
  intros Hwf. eapply Forall_impl; [apply (wf_falling s Hwf)|]. now intros c [? ?].
Qed.

Lemma wellFormed_initial : wellFormed initialState.
Proof.
  split.
  - unfold RNG.m. simpl. lia.
  - reflexivity.
  - repeat constructor.
  - repeat constructor; vm_compute; congruence.
  - reflexivity.
  - discriminate.
  - reflexivity.
Qed.

(** A block accepted by [isValidPosition] lies on the board. *)
Lemma isValidPosition_onBoard (b : FallingBlock) (rows : Grid) :
  isValidPosition b rows = true -> Forall onBoard (cells b).
Proof.
  unfold isValidPosition. intros H%Nat.eqb_eq.
  apply Forall_forall. intros c Hc.
  assert (Hin : invalidCell rows c = false).
  { destruct (invalidCell rows c) eqn:E; [|reflexivity].
    assert (Hf : In c (List.filter (invalidCell rows) (cells b))).
    { apply filter_In. split; [now apply list_elem_of_In | assumption]. }
    destruct (List.filter (invalidCell rows) (cells b)); [destruct Hf | discriminate]. }
  unfold invalidCell in Hin. unfold onBoard.
  destruct (Z.ltb_spec (x c) 0); [discriminate|].
  destruct (Z.geb_spec (x c) Viewport.CANVAS_WIDTH); [discriminate|].
  destruct (Z.ltb_spec (y c) 0); [discriminate|].
  destruct (Z.geb_spec (y c) Viewport.CANVAS_HEIGHT); [discriminate|].
  lia.
Qed.

(** Replacing the falling block by another well-placed block of the same
    kind keeps a state well formed. *)
Lemma wellFormed_withFallingBlock (s : State) (b : FallingBlock) :
  wellFormed s ->
  Forall onBoard (cells b) ->
  length (cells b) = 4%nat ->
  (type b = SQUARE -> exists dx dy, cells b = translate dx dy (cells squareBlock)) ->
  wellFormed (withFallingBlock s b).
Proof.
  intros [] Hb Hl Hsq. split; assumption.
Qed.

Lemma move_wellFormed (direction : Direction) (s : State) :
  wellFormed s -> exists s', move direction s = Ok s' /\ wellFormed s'.
Proof.
  intros Hwf. unfold move.
  rewrite canMove_isValidPosition
    by (auto using wellFormed_heights, wellFormed_rows).
  cbn [bind].
  destruct (isValidPosition (shiftedBlock direction (fallingBlock s)) (placedBlocks s))
    eqn:Ev; eexists; (split; [reflexivity|]); [|assumption].
  apply (wellFormed_withFallingBlock s (shiftedBlock direction (fallingBlock s)) Hwf).
  - eapply isValidPosition_onBoard; eassumption.
  - unfold shiftedBlock. cbn [cells withCells]. rewrite length_fmap.
    apply (wf_cells s Hwf).
  - rewrite shiftedBlock_cells. cbn [shiftedBlock withCells type].
    intros (dx & dy & Hsq)%(wf_square s Hwf). rewrite Hsq.
    exists (dx + offsetOf direction), (dy + 0).
    now rewrite translate_translate.
Qed.

Lemma rotateBlock_wellFormed (s : State) :
  wellFormed s -> exists s', rotateBlock s = Ok s' /\ wellFormed s'.
Proof.
  intros Hwf.
  destruct (decide (type (fallingBlock s) = SQUARE)) as [Hsq|Hns].
  { destruct (wf_square s Hwf Hsq) as (dx & dy & Hc).
    exists s. split; [now apply (rotateBlock_square s dx dy) | assumption]. }
  assert (Hkeep : forall cs,
            Forall onBoard cs -> length cs = 4%nat ->
            wellFormed (withFallingBlock s (withCells (fallingBlock s) cs))).
  { intros cs Hcs Hl. apply wellFormed_withFallingBlock; auto.
    cbn [type withCells]. intros Habs. contradiction. }
  unfold rotateBlock.
  destruct (_ && _); [exists s; split; [reflexivity | assumption]|].
  pose proof (wf_cells s Hwf) as Hlen.
  destruct (js_index_in_range (cells (fallingBlock s)) 1 ltac:(rewrite Hlen; lia))
    as [pivot ->].
  cbn [bind].
  set (newCells := generateRotatedCells _ _ _).
  assert (HlenNew : length newCells = 4%nat).
  { unfold newCells, generateRotatedCells. now rewrite length_fmap. }
  destruct (isValidPosition (withCells (fallingBlock s) newCells) (placedBlocks s))
    eqn:Ev.
  { eexists; split; [reflexivity|]. apply Hkeep; [|assumption].
    now apply isValidPosition_onBoard in Ev. }
  match goal with |- context [List.find ?p ?l] =>
    destruct (List.find p l) as [kick|] eqn:Ef end.
  - apply find_some in Ef as [_ Ek].
    eexists; split; [reflexivity|].
    apply isValidPosition_onBoard in Ek.
    unfold kickedBy in *. cbn [cells withCells colour type] in *.
    apply (Hkeep _ Ek). now rewrite length_fmap.
  - exists s. split; [reflexivity | assumption].
Qed.

(** ** Locking keeps the grid rectangular *)

Lemma writeCell_rectangular (acc : Grid) (yIndex xIndex : Z) (v : BlockCell) :
  length acc = Z.to_nat Constants.GRID_HEIGHT ->
  Forall (fun row => length row = Z.to_nat Constants.GRID_WIDTH) acc ->
  0 <= yIndex < Constants.GRID_HEIGHT ->
  0 <= xIndex < Constants.GRID_WIDTH ->
  exists acc',
    writeCell acc yIndex xIndex v = Ok acc'
    /\ length acc' = Z.to_nat Constants.GRID_HEIGHT
    /\ Forall (fun row => length row = Z.to_nat Constants.GRID_WIDTH) acc'.
Proof.
  intros Hh Hw Hy Hx. unfold writeCell.
  destruct (js_index_in_range acc yIndex ltac:(lia)) as [row Hrow].
  rewrite Hrow.
  assert (Hlen : length row = Z.to_nat Constants.GRID_WIDTH).
  { rewrite js_index_lookup in Hrow by lia.
    rewrite Forall_forall in Hw. apply Hw. eapply list_elem_of_lookup_2; eauto. }
  destruct (Z.leb_spec 0 xIndex); [|lia].
  destruct (Z.ltb_spec xIndex (Z.of_nat (length row))); [|lia].
  eexists; split; [reflexivity|]. split.
  - now rewrite length_insert.
  - apply Forall_insert; [assumption|]. now rewrite length_insert.
Qed.

Lemma stampBlock_rectangular (b : FallingBlock) (rows : Grid) :
  Forall onBoard (cells b) ->
  length rows = Z.to_nat Constants.GRID_HEIGHT ->
  Forall (fun row => length row = Z.to_nat Constants.GRID_WIDTH) rows ->
  exists g,
    stampBlock b rows = Ok g
    /\ length g = Z.to_nat Constants.GRID_HEIGHT
    /\ Forall (fun row => length row = Z.to_nat Constants.GRID_WIDTH) g.
Proof.
  unfold stampBlock. generalize (mkBlockCell true (colour b)) as v. intros v.
  induction (cells b) as [|c cs IH] in rows |- *; intros Hcs Hh Hw.
  - exists rows. repeat split; assumption.
  - inversion Hcs as [|? ? [Hx Hy] Hrest]; subst. cbn [foldR].
    destruct (writeCell_rectangular rows (y c / Block.HEIGHT) (x c / Block.WIDTH) v
                Hh Hw (row_index_range _ Hy) (cell_index_range _ Hx))
      as (acc' & -> & Hh' & Hw').
    cbn [bind]. now apply IH.
Qed.

Lemma clearFullRows_wellFormed (s : State) :
  wellFormed s -> wellFormed (clearFullRows s).
Proof.
  intros Hwf. split; try (destruct Hwf; assumption).
  - rewrite clearFullRows_height. apply (wf_height s Hwf).
  - rewrite clearFullRows_grid. apply Forall_app. split.
    + apply Forall_replicate. reflexivity.
    + apply Forall_forall. intros row Hrow.
      apply list_elem_of_In, filter_In in Hrow as [Hrow _].
      pose proof (wf_width s Hwf) as Hw. rewrite Forall_forall in Hw.
      apply Hw. now apply list_elem_of_In.
Qed.

Lemma handleBlockLocking_wellFormed (s : State) :
  wellFormed s -> exists s', handleBlockLocking s = Ok s' /\ wellFormed s'.
Proof.
  intros Hwf. unfold handleBlockLocking. rewrite copy_grid.
  destruct (stampBlock_rectangular (fallingBlock s) (placedBlocks s)
              (wf_falling s Hwf) (wf_height s Hwf) (wf_width s Hwf))
    as (g & -> & Hh & Hw).
  cbn [bind].
  destruct (drawFromBag_succeeds (currentSeed s) (currentBag s) (wf_seed s Hwf))
    as (d & -> & Hseed & Hd).
  cbn [bind]. eexists; split; [reflexivity|].
  apply clearFullRows_wellFormed. split; cbn; try assumption.
  - rewrite (wf_next s Hwf). apply spawn_onBoard.
  - rewrite (wf_next s Hwf). apply spawn_onBoard.
  - rewrite (wf_next s Hwf). apply spawn_square.
Qed.

(** ** Falling, hard drop, hold and restart keep the invariant *)

(** [tick] repeats the test of [canMoveDown] cell by cell; the two agree on
    every state, faults included. *)
Lemma tick_canMoveDown (s : State) :
  tick s
  = (b <- canMoveDown s ;;
     if b then Ok (moveBlockDown s) else handleBlockLocking s).
Proof.
  unfold tick, canMoveDown, moveBlockDown.
  generalize (fun cell : Cell =>
                if y cell + Block.HEIGHT >=? Viewport.CANVAS_HEIGHT then Ok true
                else placedAt (placedBlocks s) ((y cell + Block.HEIGHT) / Block.HEIGHT)
                       (x cell / Block.WIDTH)) as f.
  intros f.
  assert (H : forall l : list Cell,
            match filterR f l, mapR f l with
            | Ok r, Ok bs => length r = length (List.filter (fun b => b) bs)
            | Throw e, Throw e' => e = e'
            | _, _ => False
            end).
  { induction l as [|c l IH]; [reflexivity|].
    cbn [filterR mapR]. destruct (f c) as [b|e]; cbn [bind]; [|reflexivity].
    destruct (filterR f l) as [r|e], (mapR f l) as [bs|e']; cbn [bind];
      try contradiction; [|assumption].
    destruct b; cbn [List.filter length]; congruence. }
  specialize (H (cells (fallingBlock s))).
  destruct (filterR f (cells (fallingBlock s))) as [r|e],
           (mapR f (cells (fallingBlock s))) as [bs|e']; cbn [bind];
    try contradiction; [|congruence].
  rewrite H. destruct (length (List.filter (fun b => b) bs)); reflexivity.
Qed.

Lemma descend_wellFormed (k : nat) (s : State) :
  wellFormed s ->
  (forall j : nat, (j < k)%nat ->
     canMoveDown (withFallingBlock s (descend j (fallingBlock s))) = Ok true) ->
  wellFormed (withFallingBlock s (descend k (fallingBlock s))).
Proof.
  intros Hwf Hfree. apply wellFormed_withFallingBlock; [assumption| | |].
  - apply Forall_forall. intros c Hc.
    unfold descend, translate in Hc. cbn [cells withCells] in Hc.
    apply list_elem_of_fmap in Hc as (c0 & -> & Hc0).
    pose proof (wf_falling s Hwf) as Hon. rewrite Forall_forall in Hon.
    destruct (Hon c0 Hc0) as [Hx Hy]. unfold onBoard. cbn [x y].
    split; [lia|]. split; [change Block.HEIGHT with 20; lia|].
    destruct k as [|k]; [change Block.HEIGHT with 20; lia|].
    pose proof (canMoveDown_true_height _
                  (mkCell (x c0 + 0) (y c0 + Z.of_nat k * Block.HEIGHT))
                  (Hfree k ltac:(lia))) as Hlt.
    cbn [y] in Hlt. change Block.HEIGHT with 20 in *.
    enough (y c0 + Z.of_nat k * 20 + 20 < Viewport.CANVAS_HEIGHT) by lia.
    apply Hlt. cbn [fallingBlock withFallingBlock]. unfold descend, translate.
    cbn [cells withCells].
    apply (list_elem_of_fmap_2 (fun c => mkCell (x c + 0) (y c + Z.of_nat k * 20))).
    assumption.
  - unfold descend, translate. cbn [cells withCells]. rewrite length_fmap.
    apply (wf_cells s Hwf).
  - unfold descend. cbn [cells withCells type].
    intros (dx & dy & Hsq)%(wf_square s Hwf). rewrite Hsq, translate_translate.
    eauto.
Qed.

Lemma tick_wellFormed (s : State) :
  wellFormed s -> exists s', tick s = Ok s' /\ wellFormed s'.
Proof.
  intros Hwf. rewrite tick_canMoveDown.
  rewrite canMoveDown_spec by auto using wellFormed_columns, wellFormed_rows.
  cbn [bind].
  destruct (forallb _ _) eqn:Efree; [|now apply handleBlockLocking_wellFormed].
  eexists; split; [reflexivity|].
  rewrite <- (withFallingBlock_same s) at 1. rewrite moveBlockDown_descend.
  apply descend_wellFormed; [assumption|].
  intros j Hj. assert (j = 0%nat) as -> by lia.
  rewrite descend_zero, withFallingBlock_same.
  rewrite canMoveDown_spec by auto using wellFormed_columns, wellFormed_rows.
  now rewrite Efree.
Qed.

Lemma moveHardDown_wellFormed (fuel : nat) (s s' : State) :
  wellFormed s -> moveHardDown fuel s = Some (Ok s') -> wellFormed s'.
Proof.
  intros Hwf. rewrite moveHardDown_locks_ghost.
  destruct (moveGhostBlockToGround fuel s (fallingBlock s)) as [[ghost|f]|] eqn:Eg;
    [|discriminate..].
  apply ghost_is_descent in Eg as (k & -> & Hfree & _).
  intros [= Hlock].
  destruct (handleBlockLocking_wellFormed _ (descend_wellFormed k s Hwf Hfree))
    as (s2 & Hs2 & Hwf2).
  congruence.
Qed.

(** A hard drop from a well-formed state needs at most 21 levels of
    recursion, one per row and one to stop. *)
Lemma moveHardDown_total (fuel : nat) (s : State) :
  wellFormed s -> (21 <= fuel)%nat ->
  exists s', moveHardDown fuel s = Some (Ok s').
Proof.
  intros Hwf Hfuel.
  pose proof (wf_cells s Hwf) as Hlen.
  destruct (cells (fallingBlock s)) as [|c0 cs] eqn:Ec; [discriminate|].
  pose proof (wf_falling s Hwf) as Hon. rewrite Ec in Hon.
  apply Forall_cons in Hon as [[_ Hy0] _].
  destruct (ghost_terminates 20 s (fallingBlock s) c0) as [r Hr].
  { rewrite Ec. left. }
  { change Block.HEIGHT with 20. change Viewport.CANVAS_HEIGHT with 400 in *. lia. }
  destruct r as [ghost|f].
  - apply (ghost_fuel_mono _ (fuel - 21)) in Hr.
    replace (21 + (fuel - 21))%nat with fuel in Hr by lia.
    rewrite moveHardDown_locks_ghost, Hr.
    apply ghost_is_descent in Hr as (k & -> & Hfree & _).
    destruct (handleBlockLocking_wellFormed _ (descend_wellFormed k s Hwf Hfree))
      as (s2 & Hs2 & _).
    rewrite Hs2. eauto.
  - exfalso. apply (ghost_no_throw 21 s (fallingBlock s) f);
      auto using wellFormed_columns, wellFormed_rows.
Qed.

Lemma holdBlock_wellFormed (s : State) :
  wellFormed s -> exists s', holdBlock s = Ok s' /\ wellFormed s'.
Proof.
  intros Hwf. unfold holdBlock.
  destruct (blockHeldDuringFall s); [eauto|].
  destruct (bool_decide _); cbn [bind].
  - eexists; split; [reflexivity|]. destruct Hwf.
    split; cbn; auto using spawn_square; apply spawn_onBoard.
  - destruct (drawFromBag_succeeds (currentSeed s) (currentBag s) (wf_seed s Hwf))
      as (d & -> & Hseed & Hd).
    cbn [bind]. eexists; split; [reflexivity|]. destruct Hwf.
    split; cbn; auto using spawn_square; apply spawn_onBoard.
Qed.

Lemma restartGame_wellFormed (s : State) :
  wellFormed s -> exists s', restartGame s = Ok s' /\ wellFormed s'.
Proof.
  intros Hwf. unfold restartGame.
  destruct (gameEnd s); [|eauto].
  destruct (drawFromBag_succeeds (currentSeed s) (currentBag s) (wf_seed s Hwf))
    as (d1 & -> & Hseed1 & Hd1).
  cbn [bind].
  destruct (drawFromBag_succeeds (newSeed d1) (newBag d1) Hseed1)
    as (d2 & -> & Hseed2 & Hd2).
  cbn [bind]. eexists; split; [reflexivity|].
  split; cbn; try assumption.
  - reflexivity.
  - repeat constructor.
  - rewrite Hd1. apply spawn_onBoard.
  - rewrite Hd1. apply spawn_onBoard.
  - rewrite Hd1. apply spawn_square.
Qed.

(** Every action keeps a well-formed state well formed. *)
Lemma reducer_wellFormed (fuel : nat) (s s' : State) (action : Action) :
  wellFormed s -> reducer fuel s action = Some (Ok s') -> wellFormed s'.
Proof.
  intros Hwf. unfold reducer.
  assert (Hact : applyAction fuel action s = Some (Ok s') -> wellFormed s').
  { destruct action; cbn [applyAction]; try (now apply moveHardDown_wellFormed).
    all: intros [= H].
    - destruct (move_wellFormed DirLeft s Hwf) as (? & ? & ?).
      unfold moveLeft in H. congruence.
    - destruct (move_wellFormed DirRight s Hwf) as (? & ? & ?).
      unfold moveRight in H. congruence.
    - destruct (tick_wellFormed s Hwf) as (? & ? & ?).
      unfold moveDown in H. congruence.
    - destruct (tick_wellFormed s Hwf) as (? & ? & ?). congruence.
    - destruct (rotateBlock_wellFormed s Hwf) as (? & ? & ?). congruence.
    - destruct (restartGame_wellFormed s Hwf) as (? & ? & ?). congruence.
    - destruct (holdBlock_wellFormed s Hwf) as (? & ? & ?). congruence. }
  destruct (gameEnd s); [|assumption].
  destruct (bool_decide _); [assumption|]. now intros [= <-].
Qed.

(** The engine does not fault on a well-formed state: with fuel for 21
    levels of recursion every action returns a state. *)
Lemma reducer_total (fuel : nat) (s : State) (action : Action) :
  wellFormed s -> (21 <= fuel)%nat ->
  exists s', reducer fuel s action = Some (Ok s').
Proof.
  intros Hwf Hfuel. unfold reducer.
  assert (Hact : exists s', applyAction fuel action s = Some (Ok s')).
  { destruct action; cbn [applyAction]; try (now apply moveHardDown_total).
    - destruct (move_wellFormed DirLeft s Hwf) as (s' & H & _).
      unfold moveLeft. rewrite H. eauto.
    - destruct (move_wellFormed DirRight s Hwf) as (s' & H & _).
      unfold moveRight. rewrite H. eauto.
    - destruct (tick_wellFormed s Hwf) as (s' & H & _).
      unfold moveDown. rewrite H. eauto.
    - destruct (tick_wellFormed s Hwf) as (s' & -> & _). eauto.
    - destruct (rotateBlock_wellFormed s Hwf) as (s' & -> & _). eauto.
    - destruct (restartGame_wellFormed s Hwf) as (s' & -> & _). eauto.
    - destruct (holdBlock_wellFormed s Hwf) as (s' & -> & _). eauto. }
  destruct (gameEnd s); [|assumption].
  destruct (bool_decide _); [assumption | eauto].
Qed.

Lemma reachable_wellFormed (s : State) : reachable s -> wellFormed s.
Proof.
  induction 1 as [|fuel s s' action _ IH Hstep].
  - apply wellFormed_initial.
  - eapply reducer_wellFormed; eassumption.
Qed.

Lemma runActions_reachable (fuel : nat) (actions : list Action) (s s' : State) :
  reachable s -> runActions fuel actions s = Some (Ok s') -> reachable s'.
Proof.
  revert s. induction actions as [|action rest IH]; intros s Hs.
  - now intros [= <-].
  - cbn [runActions].
    destruct (reducer fuel s action) as [[s1|f]|] eqn:E; [|discriminate..].
    apply IH. eapply reachable_step; eassumption.
Qed.

(** From a well-formed state the ghost is found within 21 levels of
    recursion, and the state with the ghost as its falling block is well
    formed again. *)
Lemma ghost_total (s : State) :
  wellFormed s ->
  exists ghost,
    wellFormed (withFallingBlock s ghost)
    /\ forall fuel, (21 <= fuel)%nat ->
         getGhostBlockPosition fuel s = Some (Ok ghost).
Proof.
  intros Hwf.
  pose proof (wf_cells s Hwf) as Hlen.
  destruct (cells (fallingBlock s)) as [|c0 cs] eqn:Ec; [discriminate|].
  pose proof (wf_falling s Hwf) as Hon. rewrite Ec in Hon.
  apply Forall_cons in Hon as [[_ Hy0] _].
  destruct (ghost_terminates 20 s (fallingBlock s) c0) as [r Hr].
  { rewrite Ec. left. }
  { change Block.HEIGHT with 20. change Viewport.CANVAS_HEIGHT with 400 in *. lia. }
  destruct r as [ghost|f].
  - exists ghost. split.
    + apply ghost_is_descent in Hr as (k & -> & Hfree & _).
      now apply descend_wellFormed.
    + intros fuel Hfuel. rewrite getGhostBlockPosition_unfold.
      replace fuel with (21 + (fuel - 21))%nat by lia.
      now apply ghost_fuel_mono.
  - exfalso. apply (ghost_no_throw 21 s (fallingBlock s) f);
      auto using wellFormed_columns, wellFormed_rows.
Qed.

(** ** The hold flag between locks *)

Lemma move_keeps_hold_flag (direction : Direction) (s s' : State) :
  move direction s = Ok s' -> blockHeldDuringFall s' = blockHeldDuringFall s.
Proof.
  unfold move. destruct (canMove direction s) as [[|]|]; cbn [bind];
    [| |discriminate]; now intros [= <-].
Qed.

Lemma rotateBlock_keeps_hold_flag (s s' : State) :
  rotateBlock s = Ok s' -> blockHeldDuringFall s' = blockHeldDuringFall s.
Proof.
  unfold rotateBlock.
  destruct (_ && _); [now intros [= <-]|].
  destruct (match js_index (cells (fallingBlock s)) 1 with
            | Some _ => _ | None => _ end) as [newCells|]; cbn [bind];
    [|discriminate].
  destruct (isValidPosition _ _); [now intros [= <-]|].
  destruct (List.find _ _); now intros [= <-].
Qed.

Lemma fall_keeps_hold_flag (s s' : State) :
  canMoveDown s = Ok true -> tick s = Ok s' ->
  blockHeldDuringFall s' = blockHeldDuringFall s.
Proof.
  intros Hfree. rewrite tick_canMoveDown, Hfree. cbn [bind]. now intros [= <-].
Qed.

(** ** Worked examples *)

(** The scenario of the specification: the first draw for seed 159. *)
Example first_draw :
  (bag <- shuffleBag 159 ;; drawFromBag 159 bag)
  = Ok (mkDrawResult tShapeBlock 1483812454
          [L_SHAPE2; Z_SHAPE1; Z_SHAPE2; L_SHAPE1; SQUARE; LINE]).
Proof. vm_compute. reflexivity. Qed.

(** Rounding matters: the exact congruence sends 181070632 to [m - 1], the
    binary64 computation sends it to 0. *)
Example hash_is_rounded :
  (RNG.a * 181070632 + RNG.c) mod RNG.m = RNG.m - 1
  /\ RNG.hash 181070632 = 0.
Proof. split; vm_compute; reflexivity. Qed.

(** Outside the unsigned range the index leaves the bag and the draw
    throws. *)
Example draw_negative_seed : drawFromBag (-5) [SQUARE; LINE] = Throw TypeError.
Proof. vm_compute. reflexivity. Qed.

(** [canMove] has no test on [y]: on a record with a cell above the board it
    accepts a move that [isValidPosition] refuses. *)
Example canMove_above_board :
  canMove DirLeft aboveBoard = Ok true
  /\ isValidPosition (shiftedBlock DirLeft (fallingBlock aboveBoard))
       (placedBlocks aboveBoard) = false.
Proof. split; vm_compute; reflexivity. Qed.

(** [rotateBlock] recognises the square by its cells, not by its tag. *)
Example rotateBlock_reads_cells :
  type (fallingBlock squareTaggedLine) = SQUARE
  /\ exists s', rotateBlock squareTaggedLine = Ok s'
                /\ fallingBlock s' <> fallingBlock squareTaggedLine.
Proof.
  split; [reflexivity|]. eexists. split; [vm_compute; reflexivity|].
  intros H. discriminate H.
Qed.

(** Restarting after a game that ended on 300 points with a high score of
    100: the board is fresh, the high score is 300, the two blocks are drawn
    from the bag that was left, and level 1 goes to the tick timer. *)
Example restart_after_game_over :
  restartGame endedGame
  = Ok (mkState false squareBlock emptyGrid 1 0 0 300 lineBlock None false
          (RNG.hash (RNG.hash 98648576)) [])
  /\ restartGame_emits endedGame = Some 1.
Proof. split; vm_compute; reflexivity. Qed.

(** On the empty board the T block comes to rest 18 rows down; a hard drop
    locks it there, completes no row and leaves the score at 0. *)
Example ghost_of_initialState :
  getGhostBlockPosition 21 initialState = Some (Ok (descend 18 tShapeBlock)).
Proof. vm_compute. reflexivity. Qed.

Example hard_drop_on_empty_board :
  exists s',
    moveHardDown 21 initialState = Some (Ok s')
    /\ score s' = 0
    /\ gameEnd s' = false
    /\ fallingBlock s' = lShapeBlock2
    /\ placedBlocks s' !! 19%nat
       = Some (<[3%nat := mkBlockCell true "#FF00FF"]>
                 (<[4%nat := mkBlockCell true "#FF00FF"]>
                    (<[5%nat := mkBlockCell true "#FF00FF"]> emptyRow))).
Proof. eexists. split; [vm_compute; reflexivity|]. repeat split. Qed.

(** * The claims of the specification *)

(** C1. For every seed (an unsigned 31-bit integer, as the seed always is),
    [scale(hash(seed))] lies in [[0, 1)]; hence for a non-empty bag the index
    computed by [drawFromBag] is below the bag's length and the block
    returned is that of an element of the bag; and for any bag, empty or
    not, the draw completes without an out-of-bounds read. *)
Theorem C1_draw_index_in_bounds (seed : Z) (bag : list BlockType) :
  0 <= seed < RNG.m ->
  (0 <= RNG.scale (RNG.hash seed) /\ RNG.scale (RNG.hash seed) < 1)%Q
  /\ (bag <> [] ->
      0 <= randomIndexOf seed (Z.of_nat (length bag)) < Z.of_nat (length bag)
      /\ exists t d,
           js_index bag (randomIndexOf seed (Z.of_nat (length bag))) = Some t
           /\ t ∈ bag
           /\ drawFromBag seed bag = Ok d
           /\ drawnBlock d = createFallingBlock t)
  /\ exists d, drawFromBag seed bag = Ok d.
Proof.
  intros Hs. split; [now apply scale_range|].
  assert (Hne : bag <> [] ->
          0 <= randomIndexOf seed (Z.of_nat (length bag)) < Z.of_nat (length bag)
          /\ exists t d,
               js_index bag (randomIndexOf seed (Z.of_nat (length bag))) = Some t
               /\ t ∈ bag
               /\ drawFromBag seed bag = Ok d
               /\ drawnBlock d = createFallingBlock t).
  { intros Hne. destruct (drawFromBag_nonempty seed bag Hs Hne) as (i & t & Hi & Hl & Hd).
    split.
    - apply randomIndexOf_range; [assumption|]. destruct bag; [congruence | simpl; lia].
    - exists t. eexists. rewrite <- Hi, js_index_lookup, Nat2Z.id by lia.
      repeat split; [assumption | | exact Hd | reflexivity].
      eapply list_elem_of_lookup_2; eauto. }
  split; [assumption|].
  destruct (drawFromBag_succeeds seed bag Hs) as (d & Hd & _).
  exists d. assumption.
Qed.

Lemma C1_draw_index_in_bounds_witness :
  0 <= 159 < RNG.m /\ exists d, drawFromBag 159 [SQUARE; LINE; T_SHAPE] = Ok d.
Proof.
  assert (H : 0 <= 159 < RNG.m) by (unfold RNG.m; lia).
  split; [exact H|].
  exact (proj2 (proj2 (C1_draw_index_in_bounds 159 [SQUARE; LINE; T_SHAPE] H))).
Defined.

(** C2. For every state of the game, [canMove] in a direction is
    [isValidPosition] of the block shifted one cell width that way against
    the placed grid; so [moveLeft] and [moveRight] return the state with the
    shifted block exactly when [isValidPosition] accepts it, and the state
    itself otherwise.  The shifted block and the state returned are given
    field by field: the falling block of the result has every cell of the
    old one with [Block.WIDTH] subtracted from (left) or added to (right)
    its [x] and its [y] kept, in the same order, with the colour and the
    kind of the old block, and every other field of the state is the old
    one.  ([canMove_isValidPosition] has the two facts about the state that
    the proof uses.) *)
Theorem C2_lateral_move_is_collision_check (direction : Direction) (s : State) :
  reachable s ->
  canMove direction s
  = Ok (isValidPosition (shiftedBlock direction (fallingBlock s)) (placedBlocks s))
  /\ move direction s
     = Ok (if isValidPosition (shiftedBlock direction (fallingBlock s)) (placedBlocks s)
           then withFallingBlock s (shiftedBlock direction (fallingBlock s))
           else s)
  /\ cells (shiftedBlock direction (fallingBlock s))
     = translate (match direction with
                  | DirLeft => - Block.WIDTH
                  | DirRight => Block.WIDTH
                  end) 0 (cells (fallingBlock s))
  /\ moveLeft = move DirLeft
  /\ moveRight = move DirRight
  /\ shiftedBlock direction (fallingBlock s)
     = mkFallingBlock
         ((fun c => mkCell (x c + match direction with
                                  | DirLeft => - Block.WIDTH
                                  | DirRight => Block.WIDTH
                                  end) (y c))
          <$> cells (fallingBlock s))
         (colour (fallingBlock s)) (type (fallingBlock s))
  /\ exists s',
       move direction s = Ok s'
       /\ (isValidPosition (shiftedBlock direction (fallingBlock s)) (placedBlocks s)
           = true ->
           fallingBlock s' = shiftedBlock direction (fallingBlock s)
           /\ cells (fallingBlock s')
              = (fun c => mkCell (x c + match direction with
                                        | DirLeft => - Block.WIDTH
                                        | DirRight => Block.WIDTH
                                        end) (y c))
                <$> cells (fallingBlock s)
           /\ colour (fallingBlock s') = colour (fallingBlock s)
           /\ type (fallingBlock s') = type (fallingBlock s)
           /\ gameEnd s' = gameEnd s
           /\ placedBlocks s' = placedBlocks s
           /\ level s' = level s
           /\ linesCleared s' = linesCleared s
           /\ score s' = score s
           /\ highScore s' = highScore s
           /\ nextBlock s' = nextBlock s
           /\ heldBlock s' = heldBlock s
           /\ blockHeldDuringFall s' = blockHeldDuringFall s
           /\ currentSeed s' = currentSeed s
           /\ currentBag s' = currentBag s)
       /\ (isValidPosition (shiftedBlock direction (fallingBlock s)) (placedBlocks s)
           = false ->
           s' = s).
Proof.
  intros Hwf%reachable_wellFormed.
  pose proof (canMove_isValidPosition direction s
                (wellFormed_heights s Hwf) (wellFormed_rows s Hwf)) as Hc.
  assert (Hm : move direction s
               = Ok (if isValidPosition (shiftedBlock direction (fallingBlock s))
                          (placedBlocks s)
                     then withFallingBlock s (shiftedBlock direction (fallingBlock s))
                     else s)).
  { unfold move. rewrite Hc. reflexivity. }
  split; [exact Hc|]. split; [exact Hm|].
  split; [rewrite shiftedBlock_cells; destruct direction; reflexivity|].
  split; [reflexivity|]. split; [reflexivity|].
  split; [destruct direction; reflexivity|].
  eexists. split; [exact Hm|]. split.
  - intros ->. cbn [fallingBlock withFallingBlock gameEnd placedBlocks level
                    linesCleared score highScore nextBlock heldBlock
                    blockHeldDuringFall currentSeed currentBag].
    split; [reflexivity|].
    split; [destruct direction; reflexivity|].
    repeat split.
  - intros ->. reflexivity.
Qed.

Lemma C2_lateral_move_is_collision_check_witness :
  (exists s',
     moveLeft initialState = Ok s'
     /\ cells (fallingBlock s') = [mkCell 40 20; mkCell 60 20; mkCell 80 20; mkCell 60 0]
     /\ placedBlocks s' = emptyGrid)
  /\ (exists s3,
        runActions 0 [MoveLeft; MoveLeft; MoveLeft] initialState = Some (Ok s3)
        /\ cells (fallingBlock s3) = [mkCell 0 20; mkCell 20 20; mkCell 40 20; mkCell 20 0]
        /\ moveLeft s3 = Ok s3).
Proof.
  split.
  - destruct (C2_lateral_move_is_collision_check DirLeft initialState reachable_initial)
      as (_ & _ & _ & _ & _ & _ & s' & Hmove & Hyes & _).
    destruct (Hyes eq_refl) as (_ & Hcells & _ & _ & _ & Hgrid & _).
    exists s'. split; [exact Hmove|]. split; [exact Hcells | exact Hgrid].
  - assert (Hwall : match runActions 0 [MoveLeft; MoveLeft; MoveLeft] initialState with
                    | Some (Ok s3) =>
                        cells (fallingBlock s3)
                        = [mkCell 0 20; mkCell 20 20; mkCell 40 20; mkCell 20 0]
                        /\ isValidPosition (shiftedBlock DirLeft (fallingBlock s3))
                             (placedBlocks s3) = false
                    | _ => False
                    end) by (vm_compute; split; reflexivity).
    destruct (runActions 0 [MoveLeft; MoveLeft; MoveLeft] initialState)
      as [[s3|f]|] eqn:E; [|contradiction..].
    destruct Hwall as [Hcells Hno].
    pose proof (runActions_reachable _ _ _ _ reachable_initial E) as Hreach.
    destruct (C2_lateral_move_is_collision_check DirLeft s3 Hreach)
      as (_ & _ & _ & _ & _ & _ & s' & Hmove & _ & Hstay).
    rewrite (Hstay Hno) in Hmove.
    exists s3. split; [reflexivity|]. split; [exact Hcells | exact Hmove].
Defined.

(** C3. For every seed, [shuffleBag(seed)] returns a sequence of length 7
    that is a permutation of the 7 block kinds: each kind occurs in it
    exactly once. *)
Theorem C3_shuffleBag_is_permutation (seed : Z) :
  0 <= seed < RNG.m ->
  exists bag,
    shuffleBag seed = Ok bag
    /\ length bag = 7%nat
    /\ bag ≡ₚ blockTypes
    /\ NoDup bag
    /\ forall k : BlockType, count_occ BlockType_eq_dec bag k = 1%nat.
Proof.
  intros Hs. destruct (shuffleBag_permutes seed Hs) as (bag & Hbag & Hp).
  exists bag. split; [assumption|].
  split; [rewrite (Permutation_length Hp); reflexivity|].
  split; [assumption|]. split.
  - rewrite Hp. apply (bool_decide_unpack (NoDup blockTypes)). vm_compute. exact I.
  - intros k. rewrite (Permutation_count_occ BlockType_eq_dec bag blockTypes) in Hp.
    rewrite Hp. destruct k; reflexivity.
Qed.

Lemma C3_shuffleBag_is_permutation_witness :
  0 <= 159 < RNG.m
  /\ exists bag, shuffleBag 159 = Ok bag /\ length bag = 7%nat.
Proof.
  assert (H : 0 <= 159 < RNG.m) by (unfold RNG.m; lia).
  split; [exact H|].
  destruct (C3_shuffleBag_is_permutation 159 H) as (bag & Hb & Hl & _).
  exists bag. split; assumption.
Defined.

(** C4. For every seed and every bag of distinct kinds: a draw from a
    non-empty bag removes exactly the element at the computed index and
    keeps the order of the others; drawing as many times as the bag has
    elements empties it and yields each of its kinds exactly once; a draw
    from an empty bag is a draw from [shuffleBag(seed)] with the seed
    advanced once by [hash]. *)
Theorem C4_draw_without_replacement (seed : Z) (bag : list BlockType) :
  0 <= seed < RNG.m ->
  NoDup bag ->
  (bag <> [] ->
   exists (i : nat) (t : BlockType),
     Z.of_nat i = randomIndexOf seed (Z.of_nat (length bag))
     /\ bag !! i = Some t
     /\ drawFromBag seed bag
        = Ok (mkDrawResult (createFallingBlock t) (RNG.hash seed)
                (take i bag ++ drop (S i) bag)))
  /\ (exists kinds seed',
        drawMany (length bag) seed bag = Ok (kinds, seed', [])
        /\ kinds ≡ₚ bag
        /\ NoDup kinds)
  /\ (exists bag',
        shuffleBag seed = Ok bag'
        /\ drawFromBag seed [] = drawFromBag (RNG.hash seed) bag').
Proof.
  intros Hs Hnd. split; [|split].
  - intros Hne. now apply drawFromBag_nonempty.
  - destruct (drawMany_exhausts bag seed Hs) as (kinds & seed' & Hd & Hp & _).
    exists kinds, seed'. split; [assumption|]. split; [assumption|].
    now rewrite Hp.
  - destruct (drawFromBag_empty seed Hs) as (bag' & Hb & _ & He).
    exists bag'. split; assumption.
Qed.

Lemma C4_draw_without_replacement_witness :
  exists kinds seed',
    drawMany 3 159 [SQUARE; LINE; T_SHAPE] = Ok (kinds, seed', [])
    /\ kinds ≡ₚ [SQUARE; LINE; T_SHAPE]
    /\ NoDup kinds.
Proof.
  refine (proj1 (proj2 (C4_draw_without_replacement 159 [SQUARE; LINE; T_SHAPE] _ _))).
  - unfold RNG.m; lia.
  - apply (bool_decide_unpack (NoDup [SQUARE; LINE; T_SHAPE])). vm_compute. exact I.
Defined.

(** C5. The ghost returned by [getGhostBlockPosition] is the falling block
    shifted down one cell height at a time, for as long as [canMoveDown]
    allows the next step, that is, while every cell has the cell below it on
    the board and unplaced; it is a block computed from the state, which is
    left as it is.  [moveHardDown] locks at that same position: it equals
    [handleBlockLocking] applied to the state with its falling block
    replaced by the ghost.  In every state of the game both are found
    within 21 levels of recursion. *)
Theorem C5_ghost_is_hard_drop_position (fuel : nat) (s : State) :
  moveHardDown fuel s
  = match getGhostBlockPosition fuel s with
    | None => None
    | Some (Throw f) => Some (Throw f)
    | Some (Ok ghost) => Some (handleBlockLocking (withFallingBlock s ghost))
    end
  /\ (forall ghost,
        getGhostBlockPosition fuel s = Some (Ok ghost) ->
        exists k : nat,
          ghost = descend k (fallingBlock s)
          /\ (forall j : nat, (j < k)%nat ->
                canMoveDown (withFallingBlock s (descend j (fallingBlock s))) = Ok true)
          /\ canMoveDown (withFallingBlock s ghost) = Ok false)
  /\ (reachable s ->
      (exists ghost s',
         handleBlockLocking (withFallingBlock s ghost) = Ok s'
         /\ forall fuel', (21 <= fuel')%nat ->
              getGhostBlockPosition fuel' s = Some (Ok ghost)
              /\ moveHardDown fuel' s = Some (Ok s'))
      /\ forall k : nat,
           canMoveDown (withFallingBlock s (descend k (fallingBlock s)))
           = Ok (forallb (freeBelow (placedBlocks s))
                         (cells (descend k (fallingBlock s))))).
Proof.
  assert (Heq : forall fl,
            moveHardDown fl s
            = match getGhostBlockPosition fl s with
              | None => None
              | Some (Throw f) => Some (Throw f)
              | Some (Ok ghost) => Some (handleBlockLocking (withFallingBlock s ghost))
              end).
  { intros fl. rewrite getGhostBlockPosition_unfold.
    apply moveHardDown_locks_ghost. }
  split; [apply Heq|]. split.
  - intros ghost Hg. rewrite getGhostBlockPosition_unfold in Hg.
    now apply ghost_is_descent in Hg.
  - intros Hwf%reachable_wellFormed. split.
    + destruct (ghost_total s Hwf) as (ghost & Hwfg & Hg).
      destruct (handleBlockLocking_wellFormed _ Hwfg) as (s' & Hs' & _).
      exists ghost, s'. split; [assumption|]. intros fuel' Hfuel.
      split; [now apply Hg|]. now rewrite Heq, Hg, Hs'.
    + intros k. apply canMoveDown_spec; cbn [fallingBlock placedBlocks withFallingBlock].
      * apply descend_columns. now apply wellFormed_columns.
      * now apply wellFormed_rows.
Qed.

(** C6. When a lock leaves the grid with exactly [k] fully placed rows, the
    line-clear step removes exactly those rows, puts [k] empty rows on top,
    keeps the other rows in order beneath them, and adds [k * 100] to the
    score; a row with an unplaced cell is never removed. *)
Theorem C6_lock_clears_full_rows (s s' : State) :
  handleBlockLocking s = Ok s' ->
  exists g k,
    stampBlock (fallingBlock s) (placedBlocks s) = Ok g
    /\ k = length (List.filter isFullRow g)
    /\ placedBlocks s'
       = replicate k emptyRow ++ List.filter (fun row => negb (isFullRow row)) g
    /\ score s' = score s + Z.of_nat k * 100
    /\ length (placedBlocks s') = length g
    /\ forall row, isFullRow row = true <-> Forall (fun c => placed c = true) row.
Proof.
  intros (g & d & Hg & _ & ->)%handleBlockLocking_Ok.
  exists g, (length (List.filter isFullRow g)).
  split; [assumption|]. split; [reflexivity|].
  split; [apply clearFullRows_grid|].
  split; [apply clearFullRows_score|].
  split; [apply clearFullRows_height | apply isFullRow_spec].
Qed.

Lemma C6_lock_clears_full_rows_witness :
  exists s',
    handleBlockLocking bottomRowFull = Ok s'
    /\ score s' = 100
    /\ placedBlocks s' !! 0%nat = Some emptyRow.
Proof.
  destruct (handleBlockLocking bottomRowFull) as [s'|f] eqn:E;
    [|vm_compute in E; discriminate E].
  exists s'. split; [reflexivity|].
  destruct (C6_lock_clears_full_rows bottomRowFull s' E)
    as (g & k & Hg & Hk & Hgrid & Hscore & _).
  vm_compute in Hg. injection Hg as <-. vm_compute in Hk. subst k.
  split; [exact Hscore | rewrite Hgrid; reflexivity].
Defined.

(** C7. [restart] leaves a running state as it is.  On an ended state it
    returns the initial values of every field except: [highScore], the
    larger of the previous score and high score; the falling and the next
    block, drawn by two successive [drawFromBag] calls that start from the
    previous state's seed and bag; and the seed and bag those draws leave.
    The reducer hands [restart] to [restartGame] in either case. *)
Theorem C7_restart (fuel : nat) (s : State) :
  reducer fuel s RestartGame = Some (restartGame s)
  /\ (gameEnd s = false -> restartGame s = Ok s)
  /\ (gameEnd s = true ->
      restartGame s
      = (d1 <- drawFromBag (currentSeed s) (currentBag s) ;;
         d2 <- drawFromBag (newSeed d1) (newBag d1) ;;
         Ok (mkState false (drawnBlock d1) emptyGrid 1 0 0
               (Z.max (score s) (highScore s)) (drawnBlock d2) None false
               (newSeed d2) (newBag d2)))
      /\ (0 <= currentSeed s < RNG.m -> exists s', restartGame s = Ok s'))
  /\ (gameEnd initialState, placedBlocks initialState, level initialState,
      linesCleared initialState, score initialState, heldBlock initialState,
      blockHeldDuringFall initialState)
     = (false, emptyGrid, 1, 0, 0, None, false).
Proof.
  split; [|split; [|split]].
  - unfold reducer. destruct (gameEnd s); reflexivity.
  - intros H. unfold restartGame. now rewrite H.
  - intros H. unfold restartGame. rewrite H. split; [reflexivity|].
    intros Hs.
    destruct (drawFromBag_succeeds (currentSeed s) (currentBag s) Hs)
      as (d1 & -> & Hs1 & _).
    cbn [bind].
    destruct (drawFromBag_succeeds (newSeed d1) (newBag d1) Hs1) as (d2 & -> & _).
    cbn [bind]. eexists; reflexivity.
  - reflexivity.
Qed.

(** C8. With [blockHeldDuringFall] set, [holdBlock] returns its argument;
    so the second of two holds changes nothing, also when moves, rotations
    and falls that do not lock come between them.  Every lock clears the
    flag, after which a hold is carried out again. *)
Theorem C8_hold_once_per_piece (s : State) :
  (blockHeldDuringFall s = true -> holdBlock s = Ok s)
  /\ (forall s1, holdBlock s = Ok s1 ->
        blockHeldDuringFall s1 = true
        /\ holdBlock s1 = Ok s1
        /\ forall s2,
             ((exists direction, move direction s1 = Ok s2)
              \/ rotateBlock s1 = Ok s2
              \/ (canMoveDown s1 = Ok true /\ tick s1 = Ok s2)) ->
             holdBlock s2 = Ok s2)
  /\ (forall s', handleBlockLocking s = Ok s' ->
        blockHeldDuringFall s' = false
        /\ forall s'', holdBlock s' = Ok s'' ->
             heldBlock s'' = Some (createFallingBlock (type (fallingBlock s')))
             /\ blockHeldDuringFall s'' = true).
Proof.
  assert (Hheld : forall t, blockHeldDuringFall t = true -> holdBlock t = Ok t).
  { intros t Ht. unfold holdBlock. now rewrite Ht. }
  assert (Hset : forall t t', holdBlock t = Ok t' -> blockHeldDuringFall t' = true).
  { intros t t'. unfold holdBlock.
    destruct (blockHeldDuringFall t) eqn:Et; [now intros [= <-]|].
    destruct (bool_decide _); cbn [bind].
    - now intros [= <-].
    - destruct (drawFromBag _ _); cbn [bind]; [now intros [= <-] | discriminate]. }
  split; [apply Hheld|]. split.
  - intros s1 H1. pose proof (Hset _ _ H1) as Hf.
    split; [exact Hf|]. split; [now apply Hheld|].
    intros s2 [[direction Hm]|[Hr|[Hfree Ht]]]; apply Hheld.
    + now rewrite (move_keeps_hold_flag _ _ _ Hm).
    + now rewrite (rotateBlock_keeps_hold_flag _ _ Hr).
    + now rewrite (fall_keeps_hold_flag _ _ Hfree Ht).
  - intros s' (g & d & _ & _ & ->)%handleBlockLocking_Ok.
    split; [reflexivity|].
    intros s'' H''. split; [|now apply (Hset _ _ H'')].
    revert H''. unfold holdBlock.
    change (blockHeldDuringFall (clearFullRows _)) with false. cbv iota.
    destruct (bool_decide _); cbn [bind].
    + now intros [= <-].
    + destruct (drawFromBag _ _); cbn [bind]; [now intros [= <-] | discriminate].
Qed.

(** C9. For every state of the game whose falling block is of the Square
    kind, rotation is a no-op: the state, and with it the falling block, is
    returned unchanged.  ([rotateBlock_square] is the same for any state
    whose falling cells form the square.) *)
Theorem C9_square_rotation_is_noop (s : State) :
  reachable s ->
  type (fallingBlock s) = SQUARE ->
  rotateBlock s = Ok s
  /\ forall s', rotateBlock s = Ok s' -> fallingBlock s' = fallingBlock s.
Proof.
  intros Hwf%reachable_wellFormed Hsq.
  destruct (wf_square s Hwf Hsq) as (dx & dy & Hc).
  pose proof (rotateBlock_square s dx dy Hc) as Hr.
  split; [exact Hr|]. intros s' Hs'. rewrite Hr in Hs'. now injection Hs' as <-.
Qed.

Lemma C9_square_rotation_is_noop_witness :
  exists s,
    runActions 21 [MoveHardDown; MoveHardDown; MoveHardDown; Tick; MoveLeft]
      initialState = Some (Ok s)
    /\ type (fallingBlock s) = SQUARE
    /\ rotateBlock s = Ok s.
Proof.
  destruct (runActions 21 [MoveHardDown; MoveHardDown; MoveHardDown; Tick; MoveLeft]
              initialState) as [[s|f]|] eqn:E;
    [|vm_compute in E; discriminate E..].
  exists s. split; [reflexivity|].
  pose proof (runActions_reachable _ _ _ _ reachable_initial E) as Hreach.
  assert (Hsq : type (fallingBlock s) = SQUARE).
  { vm_compute in E. injection E as <-. reflexivity. }
  split; [exact Hsq|].
  exact (proj1 (C9_square_rotation_is_noop s Hreach Hsq)).
Defined.

(** C10. A hold that is carried out rebuilds both blocks with the block
    constructors: the new falling block is the spawn block of the held
    kind, or of the next kind when nothing was held, and the held block is
    the spawn block of the kind that was falling.  Neither depends on where
    the falling block had got to. *)
Theorem C10_hold_respawns_blocks (s s' : State) :
  blockHeldDuringFall s = false ->
  holdBlock s = Ok s' ->
  fallingBlock s'
  = createFallingBlock
      (match heldBlock s with
       | Some held => type held
       | None => type (nextBlock s)
       end)
  /\ heldBlock s' = Some (createFallingBlock (type (fallingBlock s)))
  /\ forall cs,
       exists s2,
         holdBlock (withFallingBlock s (withCells (fallingBlock s) cs)) = Ok s2
         /\ fallingBlock s2 = fallingBlock s'
         /\ heldBlock s2 = heldBlock s'.
Proof.
  intros Hflag. unfold holdBlock. cbn [blockHeldDuringFall heldBlock withFallingBlock
    nextBlock currentSeed currentBag fallingBlock type withCells].
  rewrite Hflag.
  destruct (heldBlock s) as [held|] eqn:Eh.
  - rewrite bool_decide_eq_true_2 by eauto. cbn [bind].
    intros [= <-]. cbn. repeat split. intros cs. eexists. repeat split.
  - rewrite bool_decide_eq_false_2 by (intros [? ?]; discriminate).
    destruct (drawFromBag (currentSeed s) (currentBag s)) as [d|]; cbn [bind];
      [|discriminate].
    intros [= <-]. cbn. repeat split. intros cs. eexists. repeat split.
Qed.

Lemma C10_hold_respawns_blocks_witness :
  exists s',
    holdBlock (moveBlockDown initialState) = Ok s'
    /\ fallingBlock s' = lShapeBlock2
    /\ heldBlock s' = Some tShapeBlock.
Proof.
  destruct (holdBlock (moveBlockDown initialState)) as [s'|f] eqn:E;
    [|vm_compute in E; discriminate E].
  exists s'. split; [reflexivity|].
  destruct (C10_hold_respawns_blocks (moveBlockDown initialState) s' eq_refl E)
    as (Hf & Hh & _).
  split; [exact Hf | exact Hh].
Defined.

(** * Further properties of the engine *)

(** X1. Every state the reducer produces from [initialState] is well formed,
    and on such a state no action faults: with fuel for 21 levels of
    recursion the reducer returns a state, which is reachable in turn. *)
Theorem X1_engine_never_faults (fuel : nat) (s : State) (action : Action) :
  reachable s ->
  (21 <= fuel)%nat ->
  wellFormed s
  /\ exists s', reducer fuel s action = Some (Ok s') /\ reachable s'.
Proof.
  intros Hreach Hfuel. pose proof (reachable_wellFormed s Hreach) as Hwf.
  split; [assumption|].
  destruct (reducer_total fuel s action Hwf Hfuel) as [s' Hs'].
  exists s'. split; [assumption|]. eapply reachable_step; eassumption.
Qed.

Lemma X1_engine_never_faults_witness :
  exists s', reducer 21 initialState MoveHardDown = Some (Ok s') /\ reachable s'.
Proof.
  exact (proj2 (X1_engine_never_faults 21 initialState MoveHardDown
                  reachable_initial (le_n 21))).
Defined.

(** X2. A tick moves the falling block down one cell height when
    [canMoveDown] allows it and locks the block where it is otherwise;
    [moveDown] is [tick]. *)
Theorem X2_tick_falls_or_locks (s : State) :
  tick s
  = (b <- canMoveDown s ;;
     if b then Ok (moveBlockDown s) else handleBlockLocking s)
  /\ moveDown s = tick s
  /\ cells (fallingBlock (moveBlockDown s))
     = translate 0 Block.HEIGHT (cells (fallingBlock s)).
Proof.
  split; [apply tick_canMoveDown|]. split; [reflexivity|].
  unfold moveBlockDown, translate. cbn [fallingBlock withFallingBlock cells withCells].
  apply list_fmap_ext. intros _ c _. f_equal. lia.
Qed.

(** X3. Line clearing adds the cleared rows to the accumulator; when it
    reaches [LEVEL_UP_LINES] the level goes up by one, capped at 6, the
    accumulator restarts from 0, and the new level is what [level$]
    receives. *)
Theorem X3_level_up (s : State) :
  let k := Z.of_nat (length (List.filter isFullRow (placedBlocks s))) in
  (Constants.LEVEL_UP_LINES <= linesCleared s + k ->
   level (clearFullRows s) = Z.min (level s + 1) 6
   /\ linesCleared (clearFullRows s) = 0
   /\ clearFullRows_emits s = Some (level (clearFullRows s)))
  /\ (linesCleared s + k < Constants.LEVEL_UP_LINES ->
      level (clearFullRows s) = level s
      /\ linesCleared (clearFullRows s) = linesCleared s + k
      /\ clearFullRows_emits s = None).
Proof.
  intros k.
  assert (Hk : Z.of_nat (length (placedBlocks s))
               - Z.of_nat (length (List.filter (fun row => negb (isFullRow row))
                                               (placedBlocks s))) = k).
  { unfold k. rewrite (filter_length_split isFullRow (placedBlocks s)) at 1. lia. }
  unfold clearFullRows, clearFullRows_emits. cbn [level linesCleared]. rewrite Hk.
  split; intros H.
  - destruct (Z.geb_spec (linesCleared s + k) Constants.LEVEL_UP_LINES); [auto|lia].
  - destruct (Z.geb_spec (linesCleared s + k) Constants.LEVEL_UP_LINES); [lia|auto].
Qed.

(** X4. [isValidPosition] accepts a block exactly when each of its cells is
    on the board and the grid cell at its row and column index, if the grid
    has one, is not placed. *)
Theorem X4_isValidPosition_spec (block : FallingBlock) (rows : Grid) :
  isValidPosition block rows = true
  <-> Forall (fun c =>
                onBoard c
                /\ forall row cell,
                     js_index rows (y c / Block.HEIGHT) = Some row ->
                     js_index row (x c / Block.WIDTH) = Some cell ->
                     placed cell = false)
             (cells block).
Proof.
  unfold isValidPosition.
  assert (Hcell : forall c,
            invalidCell rows c = false
            <-> onBoard c
                /\ forall row cell,
                     js_index rows (y c / Block.HEIGHT) = Some row ->
                     js_index row (x c / Block.WIDTH) = Some cell ->
                     placed cell = false).
  { intros c. unfold invalidCell, onBoard.
    destruct (Z.ltb_spec (x c) 0); [split; [discriminate | lia]|].
    destruct (Z.geb_spec (x c) Viewport.CANVAS_WIDTH); [split; [discriminate | lia]|].
    destruct (Z.ltb_spec (y c) 0); [split; [discriminate | lia]|].
    destruct (Z.geb_spec (y c) Viewport.CANVAS_HEIGHT); [split; [discriminate | lia]|].
    cbn [orb].
    destruct (js_index rows (y c / Block.HEIGHT)) as [row|].
    - destruct (js_index row (x c / Block.WIDTH)) as [cell|] eqn:Ecell.
      + split.
        * intros Hp. split; [lia|]. intros row' cell' [= <-] Hcell'. congruence.
        * intros [_ Hp]. now apply (Hp row cell).
      + split; [|reflexivity]. intros _. split; [lia|].
        intros row' cell' [= <-] Hcell'. congruence.
    - split; [|reflexivity]. intros _. split; [lia | discriminate]. }
  induction (cells block) as [|c cs IH]; [split; [constructor | reflexivity]|].
  cbn [List.filter]. destruct (invalidCell rows c) eqn:Ec.
  - split; [discriminate|]. intros Hall. apply Forall_cons in Hall as [Hc _].
    apply Hcell in Hc. congruence.
  - rewrite IH. split.
    + intros Hcs. constructor; [now apply Hcell | assumption].
    + intros Hall. now apply Forall_cons in Hall as [_ ?].
Qed.

(** ** Rotation geometry *)

Lemma rotated_cell (pivot c : Cell) (isLineHorizontal : bool) :
  generateRotatedCells [c] pivot isLineHorizontal
  = [ if isLineHorizontal
      then mkCell (x pivot + (y c - y pivot)) (y pivot + - (x c - x pivot))
      else mkCell (x pivot + - (y c - y pivot)) (y pivot + (x c - x pivot)) ].
Proof. destruct isLineHorizontal; reflexivity. Qed.




(** ** What a rotation commits *)

Lemma find_first {A : Type} (p : A -> bool) (l : list A) (v : A) :
  List.find p l = Some v ->
  exists l1 l2, l = l1 ++ v :: l2 /\ p v = true /\ Forall (fun w => p w = false) l1.
Proof.
  induction l as [|w l IH]; [discriminate|].
  cbn [List.find]. destruct (p w) eqn:Ew.
  - intros [= <-]. exists [], l. repeat split; [assumption | constructor].
  - intros (l1 & l2 & -> & Hv & Hl1)%IH.
    exists (w :: l1), l2. repeat split; [assumption | now constructor].
Qed.

Lemma kickedBy_cells (b : FallingBlock) (test : Cell) :
  cells (kickedBy b test)
  = translate (x test * Block.WIDTH) (y test * Block.HEIGHT) (cells b).
Proof. reflexivity. Qed.

(** X6. A rotation that is accepted replaces the falling block, and nothing
    else, by the turned cells moved by one of the wall-kick offsets: the
    first offset of the table, after the unmoved position, at which
    [isValidPosition] accepts the block.  Whatever [rotateBlock] returns
    other than its argument is therefore a valid position. *)
Theorem X6_rotateBlock_commits_valid (s s' : State) :
  rotateBlock s = Ok s' ->
  s' = s
  \/ exists pivot kick skipped later,
       js_index (cells (fallingBlock s)) 1 = Some pivot
       /\ mkCell 0 0
          :: (if isHorizontalLineBlock (list_to_set (x <$> cells (fallingBlock s)))
              then lineBlockWallKickTests
              else standardWallKickTests)
          = skipped ++ kick :: later
       /\ s' = withFallingBlock s
                 (withCells (fallingBlock s)
                    (translate (x kick * Block.WIDTH) (y kick * Block.HEIGHT)
                       (generateRotatedCells (cells (fallingBlock s)) pivot
                          (isHorizontalLineBlock
                             (list_to_set (x <$> cells (fallingBlock s)))))))
       /\ isValidPosition (fallingBlock s') (placedBlocks s) = true
       /\ Forall (fun test =>
                    isValidPosition
                      (withCells (fallingBlock s)
                         (translate (x test * Block.WIDTH) (y test * Block.HEIGHT)
                            (generateRotatedCells (cells (fallingBlock s)) pivot
                               (isHorizontalLineBlock
                                  (list_to_set (x <$> cells (fallingBlock s)))))))
                      (placedBlocks s) = false)
                 skipped.
Proof.
  unfold rotateBlock.
  set (horizontal := isHorizontalLineBlock (list_to_set (x <$> cells (fallingBlock s)))).
  destruct (_ && _); [intros [= <-]; now left|].
  destruct (js_index (cells (fallingBlock s)) 1) as [pivot|] eqn:Ep.
  2:{ destruct (cells (fallingBlock s)) as [|c cs] eqn:Ec; [|discriminate].
      cbn [bind]. replace (withCells (fallingBlock s) []) with (fallingBlock s)
        by (destruct (fallingBlock s); cbn in *; now subst).
      rewrite withFallingBlock_same.
      destruct (isValidPosition _ _); [intros [= <-]; now left|].
      destruct (List.find _ _) as [kick|] eqn:Ef; intros [= <-]; [|now left].
      left. unfold kickedBy. rewrite Ec. cbn [fmap list_fmap].
      replace (withCells (fallingBlock s) []) with (fallingBlock s)
        by (destruct (fallingBlock s); cbn in *; now subst).
      apply withFallingBlock_same. }
  cbn [bind].
  set (rotated := generateRotatedCells (cells (fallingBlock s)) pivot horizontal).
  assert (Hkick : forall test,
            kickedBy (withCells (fallingBlock s) rotated) test
            = withCells (fallingBlock s)
                (translate (x test * Block.WIDTH) (y test * Block.HEIGHT) rotated)).
  { reflexivity. }
  assert (Hzero : withCells (fallingBlock s) rotated
                  = withCells (fallingBlock s)
                      (translate (x (mkCell 0 0) * Block.WIDTH)
                                 (y (mkCell 0 0) * Block.HEIGHT) rotated)).
  { cbn [x y]. rewrite !Z.mul_0_l, translate_zero. reflexivity. }
  destruct (isValidPosition (withCells (fallingBlock s) rotated) (placedBlocks s))
    eqn:Ev.
  - intros [= <-]. right.
    exists pivot, (mkCell 0 0), [], (if horizontal then lineBlockWallKickTests
                                     else standardWallKickTests).
    split; [reflexivity|]. split; [reflexivity|].
    split; [exact (f_equal (withFallingBlock s) Hzero)|].
    split; [exact Ev | constructor].
  - destruct (List.find _ _) as [kick|] eqn:Ef; intros [= <-]; [|now left].
    apply find_first in Ef as (l1 & l2 & Hsplit & Hvalid & Hskipped).
    right. exists pivot, kick, (mkCell 0 0 :: l1), l2.
    split; [reflexivity|]. split; [now rewrite Hsplit|].
    split; [reflexivity|]. split; [exact Hvalid|].
    constructor; [cbv beta; fold rotated; now rewrite <- Hzero|].
    eapply Forall_impl; [exact Hskipped|]. intros test Ht. exact Ht.
Qed.

Lemma X6_rotateBlock_commits_valid_witness :
  exists s',
    rotateBlock initialState = Ok s'
    /\ (s' = initialState
        \/ isValidPosition (fallingBlock s') (placedBlocks initialState) = true).
Proof.
  destruct (rotateBlock initialState) as [s'|f] eqn:E;
    [|vm_compute in E; discriminate E].
  exists s'. split; [reflexivity|].
  destruct (X6_rotateBlock_commits_valid initialState s' E)
    as [Hsame|(pivot & kick & skipped & later & _ & _ & _ & Hvalid & _)];
    [left | right]; assumption.
Defined.

(** ** The line between its two positions *)

(** A rotation whose turned block is valid where it stands is committed
    without a kick. *)
Lemma rotateBlock_unkicked (s : State) (pivot : Cell) :
  (size (list_to_set (x <$> cells (fallingBlock s)) : gset Z) =? 2)%nat
  && (size (list_to_set (y <$> cells (fallingBlock s)) : gset Z) =? 2)%nat = false ->
  js_index (cells (fallingBlock s)) 1 = Some pivot ->
  isValidPosition
    (withCells (fallingBlock s)
       (generateRotatedCells (cells (fallingBlock s)) pivot
          (isHorizontalLineBlock (list_to_set (x <$> cells (fallingBlock s))))))
    (placedBlocks s) = true ->
  rotateBlock s
  = Ok (withFallingBlock s
          (withCells (fallingBlock s)
             (generateRotatedCells (cells (fallingBlock s)) pivot
                (isHorizontalLineBlock (list_to_set (x <$> cells (fallingBlock s))))))).
Proof.
  intros Hsq Hp Hv. unfold rotateBlock. rewrite Hsq, Hp. cbn [bind].
  now rewrite Hv.
Qed.

Lemma size_four (a b c d : Z) :
  NoDup [a; b; c; d] -> size (list_to_set [a; b; c; d] : gset Z) = 4%nat.
Proof. intros H. now rewrite size_list_to_set. Qed.

Lemma size_same (a : Z) : size (list_to_set [a; a; a; a] : gset Z) = 1%nat.
Proof.
  assert ((list_to_set [a; a; a; a] : gset Z) = {[a]}) as ->.
  { apply set_eq. intros z. cbn [list_to_set foldr].
    rewrite !elem_of_union, !elem_of_singleton, elem_of_empty. tauto. }
  apply size_singleton.
Qed.

Lemma NoDup_four (a b c d : Z) :
  a <> b -> a <> c -> a <> d -> b <> c -> b <> d -> c <> d -> NoDup [a; b; c; d].
Proof.
  intros. repeat (apply NoDup_cons; split);
    rewrite ?not_elem_of_cons; repeat split;
    auto using not_elem_of_nil, NoDup_nil_2.
Qed.

Ltac cells_equal :=
  change (Viewport.CANVAS_WIDTH / 2) with 100;
  change Block.WIDTH with 20; change Block.HEIGHT with 20;
  repeat match goal with
         | |- _ :: _ = _ :: _ => apply (f_equal2 cons)
         | |- mkCell _ _ = mkCell _ _ => apply (f_equal2 mkCell); lia
         | |- [] = [] => reflexivity
         end.

(** X7. A line lying flat turns about its second cell into an upright line
    and, turned again, back into the position it had: where neither turn
    needs a wall kick, two rotations return the state, not four. *)
Theorem X7_line_rotation_alternates (s : State) (dx dy : Z) :
  cells (fallingBlock s) = translate dx dy (cells lineBlock) ->
  isValidPosition (fallingBlock s) (placedBlocks s) = true ->
  isValidPosition
    (withCells (fallingBlock s)
       [mkCell (100 + dx) (dy + 20); mkCell (100 + dx) dy;
        mkCell (100 + dx) (dy - 20); mkCell (100 + dx) (dy + 40)])
    (placedBlocks s) = true ->
  exists s1,
    rotateBlock s = Ok s1
    /\ cells (fallingBlock s1)
       = [mkCell (100 + dx) (dy + 20); mkCell (100 + dx) dy;
          mkCell (100 + dx) (dy - 20); mkCell (100 + dx) (dy + 40)]
    /\ rotateBlock s1 = Ok s.
Proof.
  intros Hc Hflat Hupright.
  set (upright := [mkCell (100 + dx) (dy + 20); mkCell (100 + dx) dy;
                   mkCell (100 + dx) (dy - 20); mkCell (100 + dx) (dy + 40)]) in *.
  set (pivot := mkCell (100 + dx) (0 + dy)).
  assert (Hxs : x <$> cells (fallingBlock s) = [80 + dx; 100 + dx; 120 + dx; 60 + dx])
    by (rewrite Hc; reflexivity).
  assert (Hturn : generateRotatedCells (cells (fallingBlock s)) pivot true = upright).
  { rewrite Hc. unfold upright, pivot. cbn. cells_equal. }
  assert (Hsize : size (list_to_set (x <$> cells (fallingBlock s)) : gset Z) = 4%nat).
  { rewrite Hxs. apply size_four. apply NoDup_four; lia. }
  assert (H1 : rotateBlock s
               = Ok (withFallingBlock s (withCells (fallingBlock s) upright))).
  { rewrite <- Hturn.
    replace true with (isHorizontalLineBlock
                         (list_to_set (x <$> cells (fallingBlock s))))
      by (unfold isHorizontalLineBlock; now rewrite Hsize).
    apply rotateBlock_unkicked.
    - now rewrite Hsize.
    - rewrite Hc. reflexivity.
    - unfold isHorizontalLineBlock. rewrite Hsize. cbn [Nat.eqb].
      now rewrite Hturn. }
  eexists. split; [exact H1|]. split; [reflexivity|].
  set (s1 := withFallingBlock s (withCells (fallingBlock s) upright)).
  assert (Hxs1 : x <$> cells (fallingBlock s1)
                 = [100 + dx; 100 + dx; 100 + dx; 100 + dx]) by reflexivity.
  assert (Hsize1 : size (list_to_set (x <$> cells (fallingBlock s1)) : gset Z) = 1%nat)
    by (rewrite Hxs1; apply size_same).
  assert (Hback : generateRotatedCells (cells (fallingBlock s1)) (mkCell (100 + dx) dy)
                    false = cells (fallingBlock s)).
  { rewrite Hc. cbn. cells_equal. }
  assert (Hfb : withCells (fallingBlock s1) (cells (fallingBlock s)) = fallingBlock s).
  { unfold s1. destruct (fallingBlock s); reflexivity. }
  rewrite (rotateBlock_unkicked s1 (mkCell (100 + dx) dy)).
  - unfold isHorizontalLineBlock. rewrite Hsize1. cbn [Nat.eqb].
    rewrite Hback, Hfb. unfold s1. cbn [withFallingBlock]. f_equal.
    destruct s; reflexivity.
  - now rewrite Hsize1.
  - reflexivity.
  - unfold isHorizontalLineBlock. rewrite Hsize1. cbn [Nat.eqb].
    rewrite Hback, Hfb. exact Hflat.
Qed.

Lemma X7_line_rotation_alternates_witness :
  exists s1,
    rotateBlock lineInPlay = Ok s1
    /\ cells (fallingBlock s1)
       = [mkCell 100 120; mkCell 100 100; mkCell 100 80; mkCell 100 140]
    /\ rotateBlock s1 = Ok lineInPlay.
Proof.
  exact (X7_line_rotation_alternates lineInPlay 0 100 eq_refl eq_refl eq_refl).
Defined.

(** ** Moving there and back *)




(** ** A hard drop is a run of ticks *)

Lemma ticks_last (n : nat) (s : State) :
  ticks (S n) s = (s' <- ticks n s ;; tick s').
Proof.
  revert s. induction n as [|n IH]; intros s.
  - cbn [ticks bind]. now destruct (tick s).
  - change (ticks (S (S n)) s) with (s' <- tick s ;; ticks (S n) s').
    cbn [ticks]. destruct (tick s) as [s1|f]; cbn [bind]; [apply IH | reflexivity].
Qed.

(** X9. Whatever a hard drop returns is what a run of ticks returns: for
    some [k] below the recursion depth, [k] ticks move the block down [k]
    cell heights without locking, and the next tick gives the result of the
    hard drop, fault or state. *)
Theorem X9_hard_drop_is_ticks (fuel : nat) (s : State) (r : result State) :
  moveHardDown fuel s = Some r ->
  exists k : nat,
    (k < fuel)%nat
    /\ ticks k s = Ok (withFallingBlock s (descend k (fallingBlock s)))
    /\ ticks (S k) s = r.
Proof.
  revert s. induction fuel as [|fuel IH]; intros s; [discriminate|].
  cbn [moveHardDown].
  destruct (canMoveDown s) as [[|]|f] eqn:Ec.
  - intros (k & Hk & Hticks & Hlast)%IH. exists (S k).
    assert (Htick : tick s = Ok (moveBlockDown s))
      by (now rewrite tick_canMoveDown, Ec).
    split; [lia|]. split.
    + cbn [ticks]. rewrite Htick. cbn [bind]. rewrite Hticks.
      rewrite <- (withFallingBlock_same s) at 1 2.
      rewrite moveBlockDown_descend. cbn [fallingBlock withFallingBlock].
      now rewrite descend_succ.
    + change (ticks (S (S k)) s) with (s' <- tick s ;; ticks (S k) s').
      now rewrite Htick.
  - intros [= <-]. exists 0%nat. split; [lia|]. split.
    + cbn [ticks]. now rewrite descend_zero, withFallingBlock_same.
    + cbn [ticks]. rewrite tick_canMoveDown, Ec. cbn [bind].
      now destruct (handleBlockLocking s).
  - intros [= <-]. exists 0%nat. split; [lia|]. split.
    + cbn [ticks]. now rewrite descend_zero, withFallingBlock_same.
    + cbn [ticks]. now rewrite tick_canMoveDown, Ec.
Qed.

Lemma X9_hard_drop_is_ticks_witness :
  exists (k : nat) (r : result State),
    moveHardDown 21 initialState = Some r /\ ticks (S k) initialState = r.
Proof.
  destruct (moveHardDown 21 initialState) as [r|] eqn:E;
    [|vm_compute in E; discriminate E].
  destruct (X9_hard_drop_is_ticks 21 initialState r E) as (k & _ & _ & Hk).
  exists k, r. split; [reflexivity | exact Hk].
Defined.

(** ** What a lock writes *)

Lemma writeCell_gridCell (acc acc' : Grid) (yIndex xIndex : Z) (v : BlockCell)
    (yi xi : Z) :
  writeCell acc yIndex xIndex v = Ok acc' ->
  gridCell acc' yi xi
  = if (yIndex =? yi) && (xIndex =? xi) then Some v else gridCell acc yi xi.
Proof.
  unfold writeCell.
  destruct (js_index acc yIndex) as [row|] eqn:Er; [|discriminate].
  assert (Hrow : 0 <= yIndex /\ acc !! Z.to_nat yIndex = Some row).
  { unfold js_index in Er. destruct (Z.ltb_spec yIndex 0); [discriminate|].
    split; [lia | exact Er]. }
  destruct Hrow as [Hy0 Hrow].
  assert (Hother : forall row',
            yIndex <> yi ->
            gridCell (<[Z.to_nat yIndex := row']> acc) yi xi = gridCell acc yi xi).
  { intros row' Hne. unfold gridCell, js_index.
    destruct (Z.ltb_spec yi 0); [reflexivity|].
    now rewrite list_lookup_insert_ne by lia. }
  assert (Hsame : forall row',
            gridCell (<[Z.to_nat yIndex := row']> acc) yIndex xi = js_index row' xi).
  { intros row'. unfold gridCell. rewrite js_index_lookup by lia.
    now rewrite list_lookup_insert_eq by (eapply lookup_lt_Some; eauto). }
  assert (Hold : gridCell acc yIndex xi = js_index row xi).
  { unfold gridCell. now rewrite Er. }
  destruct ((0 <=? xIndex) && (xIndex <? Z.of_nat (length row))) eqn:Ein.
  - apply andb_true_iff in Ein as [Hx0%Z.leb_le Hx1%Z.ltb_lt]. intros [= <-].
    destruct (Z.eqb_spec yIndex yi) as [<-|Hne]; cbn [andb]; [|now apply Hother].
    rewrite Hsame, Hold. unfold js_index.
    destruct (Z.ltb_spec xi 0) as [Hxneg|Hxi].
    { destruct (Z.eqb_spec xIndex xi); [lia | reflexivity]. }
    destruct (Z.eqb_spec xIndex xi) as [<-|Hxne].
    + now rewrite list_lookup_insert_eq by lia.
    + now rewrite list_lookup_insert_ne by lia.
  - destruct (Z.eqb_spec xIndex (Z.of_nat (length row))) as [Hend|]; [|discriminate].
    intros [= <-].
    destruct (Z.eqb_spec yIndex yi) as [<-|Hne]; cbn [andb]; [|now apply Hother].
    rewrite Hsame, Hold. unfold js_index.
    destruct (Z.ltb_spec xi 0) as [Hxneg|Hxi].
    { destruct (Z.eqb_spec xIndex xi); [lia | reflexivity]. }
    destruct (Z.eqb_spec xIndex xi) as [<-|Hxne].
    + rewrite lookup_app_r by lia.
      replace (Z.to_nat xIndex - length row)%nat with 0%nat by lia. reflexivity.
    + destruct (Z.ltb_spec xi (Z.of_nat (length row))) as [Hlt|Hge].
      * now rewrite lookup_app_l by lia.
      * rewrite lookup_app_r by lia.
        rewrite (lookup_ge_None_2 row) by lia.
        apply lookup_ge_None_2. cbn [length]. lia.
Qed.

(** A write never changes the number of rows, and a write inside a row
    changes the length of no row. *)
Lemma writeCell_height (acc acc' : Grid) (yIndex xIndex : Z) (v : BlockCell) :
  writeCell acc yIndex xIndex v = Ok acc' -> length acc' = length acc.
Proof.
  unfold writeCell.
  destruct (js_index acc yIndex) as [row|]; [|discriminate].
  destruct (_ && _); [intros [= <-]; apply length_insert|].
  destruct (_ =? _); [intros [= <-]; apply length_insert | discriminate].
Qed.

Lemma writeCell_inRow (acc : Grid) (yIndex xIndex : Z) (v : BlockCell) (n : nat) :
  js_index (length <$> acc) yIndex = Some n ->
  0 <= xIndex < Z.of_nat n ->
  exists acc',
    writeCell acc yIndex xIndex v = Ok acc'
    /\ length <$> acc' = length <$> acc.
Proof.
  intros Hn Hx. unfold writeCell, js_index in *.
  destruct (yIndex <? 0); [discriminate|].
  rewrite list_lookup_fmap in Hn.
  destruct (acc !! Z.to_nat yIndex) as [row|] eqn:Er; [|discriminate].
  injection Hn as <-.
  destruct (Z.leb_spec 0 xIndex); [|lia].
  destruct (Z.ltb_spec xIndex (Z.of_nat (length row))); [|lia].
  eexists. split; [reflexivity|].
  rewrite list_fmap_insert, length_insert. apply list_insert_id.
  now rewrite list_lookup_fmap, Er.
Qed.

Lemma inRow_lengths (rows : Grid) (cell : Cell) :
  inRow rows cell
  <-> exists n : nat,
        js_index (length <$> rows) (y cell / Block.HEIGHT) = Some n
        /\ 0 <= x cell / Block.WIDTH < Z.of_nat n.
Proof.
  unfold inRow, js_index. destruct (_ <? 0).
  { split; intros (? & ? & _); discriminate. }
  rewrite list_lookup_fmap. split.
  - intros (row & -> & Hx). exists (length row). split; [reflexivity | exact Hx].
  - intros (n & Hn & Hx).
    destruct (rows !! _) as [row|]; [|discriminate]. injection Hn as <-.
    exists row. split; [reflexivity | exact Hx].
Qed.

(** X10. Locking writes the block into the grid and nothing else.  Whenever
    the merge returns a grid, a grid position occupied by one of the
    block's cells holds a placed cell of the block's colour, every other
    position holds what it held before, and the grid has as many rows as
    before.  If the grid has, for every cell of the block, the row and in
    it the column of the cell, the merge does return a grid, and every row
    has the length it had; outside that case rows can grow, as they do in
    the code ([lock_past_right_edge]). *)
Theorem X10_lock_writes_the_block (block : FallingBlock) (rows : Grid) :
  (forall rows',
     stampBlock block rows = Ok rows' ->
     (forall yIndex xIndex,
        gridCell rows' yIndex xIndex
        = if existsb (occupies yIndex xIndex) (cells block)
          then Some (mkBlockCell true (colour block))
          else gridCell rows yIndex xIndex)
     /\ length rows' = length rows)
  /\ (Forall (inRow rows) (cells block) ->
      exists rows',
        stampBlock block rows = Ok rows'
        /\ length <$> rows' = length <$> rows).
Proof.
  unfold stampBlock. generalize (mkBlockCell true (colour block)) as v. intros v.
  split.
  - revert rows. induction (cells block) as [|c cs IH]; intros rows rows'.
    + intros [= <-]. split; reflexivity.
    + cbn [foldR].
      destruct (writeCell rows (y c / Block.HEIGHT) (x c / Block.WIDTH) v)
        as [rows1|] eqn:Ew; [|discriminate].
      cbn [bind]. intros [Hcells Hheight]%IH. split.
      * intros yIndex xIndex. rewrite Hcells, (writeCell_gridCell _ _ _ _ _ _ _ Ew).
        cbn [existsb]. unfold occupies at 2.
        destruct (existsb (occupies yIndex xIndex) cs);
          [now rewrite orb_true_r|].
        now rewrite orb_false_r.
      * rewrite Hheight. eapply writeCell_height; eassumption.
  - intros Hin.
    assert (Hin' : Forall (fun c => exists n : nat,
                      js_index (length <$> rows) (y c / Block.HEIGHT) = Some n
                      /\ 0 <= x c / Block.WIDTH < Z.of_nat n) (cells block)).
    { eapply Forall_impl; [exact Hin|]. intros c. apply inRow_lengths. }
    clear Hin. revert rows Hin'.
    induction (cells block) as [|c cs IH]; intros rows Hin.
    + exists rows. split; reflexivity.
    + apply Forall_cons in Hin as [(n & Hn & Hx) Hrest]. cbn [foldR].
      destruct (writeCell_inRow rows _ _ v n Hn Hx) as (rows1 & -> & Hshape).
      cbn [bind]. destruct (IH rows1) as (rows' & Hrows' & Hshape').
      { now rewrite Hshape. }
      exists rows'. split; [exact Hrows' | now rewrite Hshape'].
Qed.

Lemma X10_lock_writes_the_block_witness :
  exists rows',
    stampBlock tShapeBlock emptyGrid = Ok rows'
    /\ gridCell rows' 1 4 = Some (mkBlockCell true "#FF00FF")
    /\ gridCell rows' 0 3 = Some (mkBlockCell false "")
    /\ length <$> rows' = length <$> emptyGrid.
Proof.
  destruct (X10_lock_writes_the_block tShapeBlock emptyGrid) as [Hany Hin].
  destruct Hin as (rows' & E & Hshape).
  { repeat constructor; eexists; (split; [reflexivity | vm_compute; split; congruence]). }
  exists rows'. destruct (Hany rows' E) as [Hcells _].
  split; [exact E|]. split; [|split; [|exact Hshape]]; rewrite Hcells; reflexivity.
Defined.

(** Past the right edge the code appends to the row, and so does the
    merge here: the second row has eleven cells afterwards. *)
Example lock_past_right_edge :
  exists rows',
    stampBlock pastRightEdge emptyGrid = Ok rows'
    /\ length <$> rows' = <[1%nat := 11%nat]> (length <$> emptyGrid)
    /\ gridCell rows' 1 10 = Some (mkBlockCell true "#FF00FF").
Proof.
  eexists. split; [vm_compute; reflexivity|]. split; reflexivity.
Qed.

(** ** After the line clear *)

Lemma filter_all {A : Type} (p : A -> bool) (l : list A) :
  Forall (fun v => p v = true) l -> List.filter p l = l.
Proof.
  induction 1 as [|v l Hv _ IH]; [reflexivity|].
  cbn [List.filter]. now rewrite Hv, IH.
Qed.

Lemma filter_none {A : Type} (p : A -> bool) (l : list A) :
  Forall (fun v => p v = false) l -> List.filter p l = [].
Proof.
  induction 1 as [|v l Hv _ IH]; [reflexivity|].
  cbn [List.filter]. now rewrite Hv, IH.
Qed.

Lemma clearFullRows_leaves_none (s : State) :
  Forall (fun row => isFullRow row = false) (placedBlocks (clearFullRows s)).
Proof.
  rewrite clearFullRows_grid. apply Forall_app. split.
  - apply Forall_replicate. reflexivity.
  - apply Forall_forall. intros row Hrow.
    apply list_elem_of_In, filter_In in Hrow as [_ Hrow].
    now apply negb_true_iff in Hrow.
Qed.

(** X11. The line clear leaves no fully placed row behind, so clearing
    again changes neither the grid nor the score: one pass removes every
    complete row. *)
Theorem X11_clear_is_complete (s : State) :
  Forall (fun row => isFullRow row = false) (placedBlocks (clearFullRows s))
  /\ placedBlocks (clearFullRows (clearFullRows s)) = placedBlocks (clearFullRows s)
  /\ score (clearFullRows (clearFullRows s)) = score (clearFullRows s).
Proof.
  pose proof (clearFullRows_leaves_none s) as Hnone.
  split; [exact Hnone|]. split.
  - rewrite (clearFullRows_grid (clearFullRows s)).
    rewrite (filter_none isFullRow) by exact Hnone.
    apply filter_all. eapply Forall_impl; [exact Hnone|].
    intros row Hrow. cbv beta in *. now rewrite Hrow.
  - rewrite (clearFullRows_score (clearFullRows s)).
    rewrite (filter_none isFullRow) by exact Hnone. cbn. lia.
Qed.

(** ** The shape of a transition *)

Lemma rotateBlock_shape (s s' : State) :
  rotateBlock s = Ok s' -> s' = s \/ exists b, s' = withFallingBlock s b.
Proof.
  unfold rotateBlock.
  destruct (_ && _); [intros [= <-]; now left|].
  destruct (match js_index (cells (fallingBlock s)) 1 with
            | Some _ => _ | None => _ end) as [newCells|]; cbn [bind];
    [|discriminate].
  destruct (isValidPosition _ _); [intros [= <-]; right; eexists; reflexivity|].
  destruct (List.find _ _); intros [= <-]; [right; eexists; reflexivity | now left].
Qed.

(** Every step of the reducer is one of five: nothing, a new falling block
    in the same state, a lock of the state with some falling block, a hold,
    or a restart. *)
Lemma reducer_cases (fuel : nat) (s s' : State) (action : Action) :
  reducer fuel s action = Some (Ok s') ->
  s' = s
  \/ (exists b, s' = withFallingBlock s b)
  \/ (exists b, handleBlockLocking (withFallingBlock s b) = Ok s')
  \/ (blockHeldDuringFall s = false /\ holdBlock s = Ok s')
  \/ (gameEnd s = true /\ restartGame s = Ok s').
Proof.
  unfold reducer.
  assert (Hact : applyAction fuel action s = Some (Ok s') ->
                 s' = s
                 \/ (exists b, s' = withFallingBlock s b)
                 \/ (exists b, handleBlockLocking (withFallingBlock s b) = Ok s')
                 \/ (blockHeldDuringFall s = false /\ holdBlock s = Ok s')
                 \/ (gameEnd s = true /\ restartGame s = Ok s')).
  { assert (Htick : tick s = Ok s' ->
                    (exists b, s' = withFallingBlock s b)
                    \/ (exists b, handleBlockLocking (withFallingBlock s b) = Ok s')).
    { rewrite tick_canMoveDown.
      destruct (canMoveDown s) as [[|]|]; cbn [bind]; [| |discriminate].
      - intros [= <-]. left. eexists. reflexivity.
      - intros H. right. exists (fallingBlock s). now rewrite withFallingBlock_same. }
    destruct action; cbn [applyAction].
    - unfold moveLeft, move. intros [= H].
      destruct (canMove DirLeft s) as [[|]|]; cbn [bind] in H; [| |discriminate];
        injection H as <-; [right; left; eexists; reflexivity | now left].
    - unfold moveRight, move. intros [= H].
      destruct (canMove DirRight s) as [[|]|]; cbn [bind] in H; [| |discriminate];
        injection H as <-; [right; left; eexists; reflexivity | now left].
    - intros [= H]. right. unfold moveDown in H. destruct (Htick H); auto.
    - intros [= H]. right. destruct (Htick H); auto.
    - intros [= H]. apply rotateBlock_shape in H. destruct H as [->|[b ->]]; [now left|].
      right; left. eexists. reflexivity.
    - rewrite moveHardDown_locks_ghost.
      destruct (moveGhostBlockToGround fuel s (fallingBlock s)) as [[ghost|]|];
        [|discriminate..].
      intros [= H]. right; right; left. now exists ghost.
    - intros [= H]. unfold restartGame in *.
      destruct (gameEnd s) eqn:Eg; [|injection H as <-; now left].
      right; right; right; right. split; [reflexivity | exact H].
    - intros [= H]. unfold holdBlock in *.
      destruct (blockHeldDuringFall s) eqn:Eh; [injection H as <-; now left|].
      right; right; right; left. split; [reflexivity | exact H]. }
  destruct (gameEnd s); [|assumption].
  destruct (bool_decide _); [assumption|]. intros [= <-]. now left.
Qed.

(** ** Book-keeping *)

Lemma drawFromBag_NoDup (seed : Z) (bag : list BlockType) (d : DrawResult) :
  0 <= seed < RNG.m -> NoDup bag -> drawFromBag seed bag = Ok d ->
  NoDup (newBag d).
Proof.
  intros Hs Hnd Hd.
  assert (Hdel : forall sd (l : list BlockType) d',
            0 <= sd < RNG.m -> NoDup l -> l <> [] ->
            drawFromBag sd l = Ok d' -> NoDup (newBag d')).
  { intros sd l d' Hsd Hl Hne Hd'.
    destruct (drawFromBag_nonempty sd l Hsd Hne) as (i & t & _ & _ & He).
    rewrite He in Hd'. injection Hd' as <-. cbn [newBag].
    rewrite <- delete_take_drop.
    eapply sublist_NoDup; [exact Hl | apply sublist_delete]. }
  destruct bag as [|k bag].
  - destruct (drawFromBag_empty seed Hs) as (bag' & _ & Hp & He).
    rewrite He in Hd. apply (Hdel (RNG.hash seed) bag' d).
    + now apply hash_seed.
    + rewrite Hp. apply (bool_decide_unpack (NoDup blockTypes)). vm_compute. exact I.
    + intros ->. apply Permutation_length in Hp. discriminate.
    + assumption.
  - apply (Hdel seed (k :: bag) d); auto; discriminate.
Qed.

Lemma clearFullRows_accounted (s : State) :
  accounted s -> accounted (clearFullRows s).
Proof.
  intros [Hlevel Hlines [Hscore Hdiv] Hhigh Hbag].
  pose proof (filter_length_split isFullRow (placedBlocks s)) as Hsplit.
  set (k := Z.of_nat (length (placedBlocks s))
            - Z.of_nat (length (List.filter (fun row => negb (isFullRow row))
                                            (placedBlocks s)))).
  assert (Hk : 0 <= k) by (unfold k; lia).
  split; unfold clearFullRows; cbn [level linesCleared score highScore currentBag];
    fold k; try assumption.
  - destruct (linesCleared s + k >=? Constants.LEVEL_UP_LINES); lia.
  - destruct (Z.geb_spec (linesCleared s + k) Constants.LEVEL_UP_LINES);
      change Constants.LEVEL_UP_LINES with 5 in *; lia.
  - split; [lia|]. apply Z.divide_add_r; [assumption|].
    apply Z.divide_mul_r, Z.divide_refl.
Qed.

Lemma handleBlockLocking_accounted (s s' : State) :
  0 <= currentSeed s < RNG.m -> accounted s ->
  handleBlockLocking s = Ok s' -> accounted s'.
Proof.
  intros Hseed [Hlevel Hlines Hscore Hhigh Hbag] (g & d & _ & Hd & ->)%handleBlockLocking_Ok.
  apply clearFullRows_accounted. split; cbn; try assumption.
  eapply drawFromBag_NoDup; eassumption.
Qed.

Lemma reducer_accounted (fuel : nat) (s s' : State) (action : Action) :
  0 <= currentSeed s < RNG.m -> accounted s ->
  reducer fuel s action = Some (Ok s') -> accounted s'.
Proof.
  intros Hseed Hacc Hstep.
  destruct (reducer_cases _ _ _ _ Hstep)
    as [->|[[b ->]|[[b Hlock]|[[Hflag Hhold]|[Hend Hrestart]]]]].
  - assumption.
  - destruct Hacc. split; assumption.
  - eapply (handleBlockLocking_accounted (withFallingBlock s b)); eauto.
    destruct Hacc. split; assumption.
  - unfold holdBlock in Hhold. rewrite Hflag in Hhold.
    destruct Hacc as [Hlevel Hlines Hscore Hhigh Hbag].
    destruct (bool_decide _); cbn [bind] in Hhold.
    + injection Hhold as <-. split; assumption.
    + destruct (drawFromBag (currentSeed s) (currentBag s)) as [d|] eqn:Ed;
        cbn [bind] in Hhold; [|discriminate].
      injection Hhold as <-. split; cbn; try assumption.
      eapply drawFromBag_NoDup; eassumption.
  - unfold restartGame in Hrestart. rewrite Hend in Hrestart.
    destruct Hacc as [Hlevel Hlines [Hscore Hdiv] [Hhigh Hhdiv] Hbag].
    destruct (drawFromBag_succeeds (currentSeed s) (currentBag s) Hseed)
      as (d1 & Hd1 & Hseed1 & _).
    rewrite Hd1 in Hrestart. cbn [bind] in Hrestart.
    destruct (drawFromBag (newSeed d1) (newBag d1)) as [d2|] eqn:Hd2;
      cbn [bind] in Hrestart; [|discriminate].
    injection Hrestart as <-. split; cbn.
    + lia.
    + change Constants.LEVEL_UP_LINES with 5. lia.
    + split; [lia | apply Z.divide_0_r].
    + split; [lia|]. destruct (Z.max_spec (score s) (highScore s)) as [[_ ->]|[_ ->]];
        assumption.
    + eapply drawFromBag_NoDup; [exact Hseed1| |exact Hd2].
      exact (drawFromBag_NoDup _ _ _ Hseed Hbag Hd1).
Qed.

Lemma reachable_accounted (s : State) : reachable s -> accounted s.
Proof.
  induction 1 as [|fuel s s' action Hreach IH Hstep].
  - split; cbn; try lia.
    + change Constants.LEVEL_UP_LINES with 5. lia.
    + split; [lia | apply Z.divide_0_r].
    + split; [lia | apply Z.divide_0_r].
    + apply (bool_decide_unpack (NoDup _)). vm_compute. exact I.
  - eapply reducer_accounted; [|exact IH|exact Hstep].
    apply (wf_seed s (reachable_wellFormed s Hreach)).
Qed.

(** X12. In every state of the game the level lies between 1 and 6, and so
    does the level a line clear would announce; the period handed to the
    tick timer, [TICK_RATE_MS - level * 70], is therefore between 80 and
    430 milliseconds and never zero or negative. *)
Theorem X12_tick_period_is_positive (s : State) :
  reachable s ->
  1 <= level s <= 6
  /\ 80 <= adjustedRate (level s) <= 430
  /\ 2 <= Z.min (level s + 1) 6 <= 6
  /\ 80 <= adjustedRate (Z.min (level s + 1) 6) <= 360
  /\ (forall l, restartGame_emits s = Some l -> l = 1).
Proof.
  intros [Hlevel _ _ _ _]%reachable_accounted.
  unfold adjustedRate. change Constants.TICK_RATE_MS with 500.
  repeat split; try lia.
  intros l. unfold restartGame_emits. destruct (gameEnd s); congruence.
Qed.

Lemma X12_tick_period_is_positive_witness :
  80 <= adjustedRate (level initialState) <= 430.
Proof.
  exact (proj1 (proj2 (X12_tick_period_is_positive initialState reachable_initial))).
Defined.

(** X13. In every state of the game the score and the high score are
    non-negative multiples of 100, and the accumulator of cleared lines
    stays below the 5 lines that a level takes. *)
Theorem X13_scores_are_multiples_of_100 (s : State) :
  reachable s ->
  0 <= score s /\ (100 | score s)
  /\ 0 <= highScore s /\ (100 | highScore s)
  /\ 0 <= linesCleared s < Constants.LEVEL_UP_LINES.
Proof.
  intros [_ Hlines [? ?] [? ?] _]%reachable_accounted. repeat split; tauto.
Qed.

Lemma X13_scores_are_multiples_of_100_witness :
  exists s,
    runActions 21 [MoveHardDown; HoldBlock; MoveHardDown] initialState = Some (Ok s)
    /\ (100 | score s).
Proof.
  destruct (runActions 21 [MoveHardDown; HoldBlock; MoveHardDown] initialState)
    as [[s|f]|] eqn:E; [|vm_compute in E; discriminate E..].
  exists s. split; [reflexivity|].
  pose proof (runActions_reachable _ _ _ _ reachable_initial E) as Hreach.
  exact (proj1 (proj2 (X13_scores_are_multiples_of_100 s Hreach))).
Defined.

Lemma NoDup_kinds_length (l : list BlockType) : NoDup l -> (length l <= 7)%nat.
Proof.
  intros Hnd. change 7%nat with (length blockTypes).
  apply submseteq_length, NoDup_submseteq; [assumption|].
  intros k _. apply list_elem_of_In. destruct k; cbn; tauto.
Qed.

(** X14. In every state of the game the bag holds distinct kinds, hence at
    most 7 of them, and a draw from it leaves a bag of distinct kinds that
    does not contain the kind just drawn unless the bag was empty and had
    to be refilled. *)
Theorem X14_bag_holds_distinct_kinds (s : State) :
  reachable s ->
  NoDup (currentBag s)
  /\ (length (currentBag s) <= 7)%nat
  /\ exists d,
       drawFromBag (currentSeed s) (currentBag s) = Ok d
       /\ NoDup (newBag d)
       /\ (currentBag s <> [] ->
           (type (drawnBlock d) ∈ currentBag s)
           /\ (type (drawnBlock d) ∉ newBag d)
           /\ length (newBag d) = (length (currentBag s) - 1)%nat)
       /\ (currentBag s = [] -> length (newBag d) = 6%nat).
Proof.
  intros Hreach.
  pose proof (acc_bag s (reachable_accounted s Hreach)) as Hnd.
  pose proof (wf_seed s (reachable_wellFormed s Hreach)) as Hseed.
  split; [assumption|]. split; [now apply NoDup_kinds_length|].
  destruct (drawFromBag_succeeds _ (currentBag s) Hseed) as (d & Hd & _ & _).
  exists d. split; [assumption|].
  split; [exact (drawFromBag_NoDup _ _ _ Hseed Hnd Hd)|]. split.
  - intros Hne.
    destruct (drawFromBag_nonempty _ _ Hseed Hne) as (i & t & _ & Hi & He).
    rewrite He in Hd. injection Hd as <-. cbn [drawnBlock newBag].
    rewrite createFallingBlock_type, <- delete_take_drop.
    split; [eapply list_elem_of_lookup_2; eauto|]. split.
    + pose proof (delete_Permutation _ _ _ Hi) as Hp.
      rewrite Hp in Hnd. now apply NoDup_cons in Hnd as [? _].
    + rewrite length_delete by eauto. reflexivity.
  - intros Hempty. rewrite Hempty in Hd.
    destruct (drawFromBag_empty _ Hseed) as (bag' & _ & Hp & He).
    rewrite He in Hd.
    destruct (drawFromBag_nonempty (RNG.hash (currentSeed s)) bag'
                (hash_seed _ Hseed)) as (i & t & _ & Hi & He').
    { intros ->. apply Permutation_length in Hp. discriminate. }
    rewrite He' in Hd. injection Hd as <-. cbn [newBag].
    rewrite <- delete_take_drop, length_delete by eauto.
    now rewrite (Permutation_length Hp).
Qed.

Lemma X14_bag_holds_distinct_kinds_witness :
  NoDup (currentBag initialState) /\ (length (currentBag initialState) <= 7)%nat.
Proof.
  destruct (X14_bag_holds_distinct_kinds initialState reachable_initial)
    as (Hnd & Hlen & _).
  split; [exact Hnd | exact Hlen].
Defined.

(** ** The high score on display *)

Lemma reducer_displayedHighScore (fuel : nat) (s s' : State) (action : Action) :
  reducer fuel s action = Some (Ok s') ->
  displayedHighScore s <= displayedHighScore s'.
Proof.
  intros Hstep. unfold displayedHighScore.
  destruct (reducer_cases _ _ _ _ Hstep)
    as [->|[[b ->]|[[b Hlock]|[[Hflag Hhold]|[Hend Hrestart]]]]].
  - lia.
  - cbn. lia.
  - apply handleBlockLocking_Ok in Hlock as (g & d & _ & _ & ->).
    rewrite clearFullRows_score. cbn [score highScore clearFullRows withFallingBlock].
    lia.
  - unfold holdBlock in Hhold. rewrite Hflag in Hhold.
    destruct (bool_decide _); cbn [bind] in Hhold.
    + injection Hhold as <-. cbn. lia.
    + destruct (drawFromBag _ _); cbn [bind] in Hhold; [|discriminate].
      injection Hhold as <-. cbn. lia.
  - unfold restartGame in Hrestart. rewrite Hend in Hrestart.
    destruct (drawFromBag _ _) as [d1|]; cbn [bind] in Hrestart; [|discriminate].
    destruct (drawFromBag _ _) as [d2|]; cbn [bind] in Hrestart; [|discriminate].
    injection Hrestart as <-. cbn. lia.
Qed.

(** X15. The high score that [render] displays, the larger of the score and
    the stored high score, never goes down, whatever actions arrive:
    locking can only add to the score, and a restart stores the larger
    value before it resets the score. *)
Theorem X15_displayed_high_score_never_drops
    (fuel : nat) (actions : list Action) (s s' : State) :
  runActions fuel actions s = Some (Ok s') ->
  displayedHighScore s <= displayedHighScore s'.
Proof.
  revert s. induction actions as [|action rest IH]; intros s.
  - intros [= <-]. lia.
  - cbn [runActions].
    destruct (reducer fuel s action) as [[s1|f]|] eqn:E; [|discriminate..].
    intros H%IH. pose proof (reducer_displayedHighScore _ _ _ _ E). lia.
Qed.

Lemma X15_displayed_high_score_never_drops_witness :
  exists s',
    runActions 21 [RestartGame; MoveLeft] endedGame = Some (Ok s')
    /\ 300 <= displayedHighScore s'.
Proof.
  destruct (runActions 21 [RestartGame; MoveLeft] endedGame) as [[s'|f]|] eqn:E;
    [|vm_compute in E; discriminate E..].
  exists s'. split; [reflexivity|].
  exact (X15_displayed_high_score_never_drops 21 _ endedGame s' E).
Defined.

(** ** The end of a game *)

(** X16. A game that has ended stays exactly as it is until a restart
    arrives: every other action, in any number and order, is dropped by the
    reducer without being applied. *)
Theorem X16_game_over_is_absorbing (fuel : nat) (actions : list Action) (s : State) :
  gameEnd s = true ->
  RestartGame ∉ actions ->
  runActions fuel actions s = Some (Ok s).
Proof.
  intros Hend. induction actions as [|action rest IH]; intros Hnone; [reflexivity|].
  apply not_elem_of_cons in Hnone as [Hne Hrest].
  cbn [runActions]. unfold reducer. rewrite Hend.
  rewrite bool_decide_eq_false_2 by congruence. now apply IH.
Qed.

Lemma X16_game_over_is_absorbing_witness :
  runActions 0 [MoveLeft; MoveHardDown; HoldBlock; Tick] endedGame = Some (Ok endedGame).
Proof.
  apply X16_game_over_is_absorbing; [reflexivity|].
  rewrite !not_elem_of_cons. repeat split; try discriminate. apply not_elem_of_nil.
Defined.

Lemma steering_frame (fuel : nat) (s s' : State) (action : Action) :
  action = MoveLeft \/ action = MoveRight \/ action = RotateBlock
  \/ action = HoldBlock ->
  applyAction fuel action s = Some (Ok s') ->
  gameEnd s' = gameEnd s
  /\ placedBlocks s' = placedBlocks s
  /\ level s' = level s
  /\ linesCleared s' = linesCleared s
  /\ score s' = score s
  /\ highScore s' = highScore s.
Proof.
  intros [-> | [-> | [-> | ->]]]; cbn [applyAction]; intros [= H].
  - unfold moveLeft, move in H.
    destruct (canMove DirLeft s) as [[|]|]; cbn [bind] in H; [| |discriminate];
      injection H as <-; repeat split.
  - unfold moveRight, move in H.
    destruct (canMove DirRight s) as [[|]|]; cbn [bind] in H; [| |discriminate];
      injection H as <-; repeat split.
  - apply rotateBlock_shape in H as [->|[b ->]]; repeat split.
  - unfold holdBlock in H.
    destruct (blockHeldDuringFall s); [injection H as <-; repeat split|].
    destruct (bool_decide _); cbn [bind] in H.
    + injection H as <-. repeat split.
    + destruct (drawFromBag _ _); cbn [bind] in H; [|discriminate].
      injection H as <-. repeat split.
Qed.

Lemma lock_gameEnd (s s' : State) :
  handleBlockLocking s = Ok s' ->
  gameEnd s'
  = existsb (fun cell => y cell / Block.HEIGHT =? 0) (cells (fallingBlock s)).
Proof. intros (g & d & _ & _ & ->)%handleBlockLocking_Ok. reflexivity. Qed.

(** X17. A running game ends in one way only: gravity (a tick, a soft drop
    or a hard drop) locks the falling block, after [k] free steps down, at
    a place where it can fall no further and where one of its cells lies in
    the top row of the grid.  Moving sideways, rotating, holding and
    restarting never end a game. *)
Theorem X17_game_ends_by_lock_in_top_row
    (fuel : nat) (s s' : State) (action : Action) :
  gameEnd s = false ->
  reducer fuel s action = Some (Ok s') ->
  gameEnd s' = true ->
  (action = MoveDown \/ action = Tick \/ action = MoveHardDown)
  /\ exists k : nat,
       let landed := descend k (fallingBlock s) in
       handleBlockLocking (withFallingBlock s landed) = Ok s'
       /\ canMoveDown (withFallingBlock s landed) = Ok false
       /\ (action <> MoveHardDown -> k = 0%nat)
       /\ exists c, c ∈ cells landed /\ y c / Block.HEIGHT = 0.
Proof.
  intros Hrun Hstep Hend. unfold reducer in Hstep. rewrite Hrun in Hstep.
  assert (Htop : forall b, handleBlockLocking (withFallingBlock s b) = Ok s' ->
                 exists c, c ∈ cells b /\ y c / Block.HEIGHT = 0).
  { intros b Hlock. apply lock_gameEnd in Hlock. rewrite Hend in Hlock.
    symmetry in Hlock. apply existsb_exists in Hlock as (c & Hc & Hy).
    exists c. split; [now apply list_elem_of_In | now apply Z.eqb_eq]. }
  assert (Htick : tick s = Ok s' ->
                  exists k : nat,
                    let landed := descend k (fallingBlock s) in
                    handleBlockLocking (withFallingBlock s landed) = Ok s'
                    /\ canMoveDown (withFallingBlock s landed) = Ok false
                    /\ k = 0%nat
                    /\ exists c, c ∈ cells landed /\ y c / Block.HEIGHT = 0).
  { rewrite tick_canMoveDown.
    destruct (canMoveDown s) as [[|]|] eqn:Ec; cbn [bind]; [| |discriminate].
    - intros [= <-]. cbn in Hend. congruence.
    - intros Hlock. exists 0%nat. cbv zeta.
      rewrite descend_zero, withFallingBlock_same.
      repeat split; try assumption.
      apply Htop. now rewrite withFallingBlock_same. }
  assert (Hsteer : action = MoveLeft \/ action = MoveRight \/ action = RotateBlock
                   \/ action = HoldBlock -> False).
  { intros Ha. destruct (steering_frame _ _ _ _ Ha Hstep) as (Hg & _). congruence. }
  destruct action; cbn [applyAction] in Hstep;
    try (exfalso; apply Hsteer; tauto).
  - injection Hstep as Hstep. split; [tauto|].
    destruct (Htick Hstep) as (k & H1 & H2 & H3 & H4).
    exists k. cbv zeta in *. repeat split; auto.
  - injection Hstep as Hstep. split; [tauto|].
    destruct (Htick Hstep) as (k & H1 & H2 & H3 & H4).
    exists k. cbv zeta in *. repeat split; auto.
  - split; [tauto|]. rewrite moveHardDown_locks_ghost in Hstep.
    destruct (moveGhostBlockToGround fuel s (fallingBlock s)) as [[ghost|]|] eqn:Eg;
      [|discriminate..].
    injection Hstep as Hlock.
    destruct (ghost_is_descent _ _ _ _ Eg) as (k & -> & _ & Hstop).
    exists k. cbv zeta. repeat split; auto. congruence.
  - exfalso. injection Hstep as Hstep. unfold restartGame in Hstep.
    rewrite Hrun in Hstep. injection Hstep as <-. congruence.
Qed.

Lemma X17_game_ends_by_lock_in_top_row_witness :
  exists s' c,
    reducer 0 toppedOut Tick = Some (Ok s')
    /\ c ∈ cells (fallingBlock toppedOut) /\ y c / Block.HEIGHT = 0.
Proof.
  assert (Hend : match reducer 0 toppedOut Tick with
                 | Some (Ok s') => gameEnd s' = true
                 | _ => False
                 end) by (vm_compute; reflexivity).
  destruct (reducer 0 toppedOut Tick) as [[s'|f]|] eqn:E; [|contradiction..].
  destruct (X17_game_ends_by_lock_in_top_row 0 toppedOut s' Tick eq_refl E Hend)
    as (_ & k & _ & _ & Hk & c & Hc & Hy).
  rewrite (Hk ltac:(discriminate)), descend_zero in Hc.
  exists s', c. repeat split; assumption.
Defined.

(** ** What steering leaves alone *)

Lemma withCells_same (b : FallingBlock) : withCells b (cells b) = b.
Proof. destruct b; reflexivity. Qed.

Lemma rotateBlock_cells_only (s s' : State) :
  rotateBlock s = Ok s' ->
  exists cs,
    s' = withFallingBlock s (withCells (fallingBlock s) cs)
    /\ length cs = length (cells (fallingBlock s)).
Proof.
  assert (Hsame : exists cs,
            s = withFallingBlock s (withCells (fallingBlock s) cs)
            /\ length cs = length (cells (fallingBlock s))).
  { exists (cells (fallingBlock s)).
    now rewrite withCells_same, withFallingBlock_same. }
  unfold rotateBlock.
  destruct (_ && _); [intros [= <-]; exact Hsame|].
  destruct (match js_index (cells (fallingBlock s)) 1 with
            | Some _ => _ | None => _ end) as [newCells|] eqn:En; cbn [bind];
    [|discriminate].
  assert (Hlen : length newCells = length (cells (fallingBlock s))).
  { destruct (js_index (cells (fallingBlock s)) 1) as [pivot|].
    - injection En as <-. unfold generateRotatedCells. now rewrite length_fmap.
    - destruct (cells (fallingBlock s)); [now injection En as <- | discriminate]. }
  destruct (isValidPosition _ _); [intros [= <-]; eauto|].
  destruct (List.find _ _) as [test|]; intros [= <-]; [|exact Hsame].
  eexists. split; [reflexivity|]. now rewrite length_fmap.
Qed.

(** X18. Steering does not touch the game: a move to the left or right and
    a rotation return the state they were given with, at most, other cells
    for the falling block (as many as before; its colour and kind, the
    grid, the score, the bag, the seed and the blocks in preview and hold
    are the same), and a hold changes neither the grid nor the level, the
    cleared lines, the score, the high score or the end-of-game flag. *)
Theorem X18_steering_changes_cells_only
    (fuel : nat) (s s' : State) (action : Action) :
  reducer fuel s action = Some (Ok s') ->
  (action = MoveLeft \/ action = MoveRight \/ action = RotateBlock ->
   exists cs,
     s' = withFallingBlock s (withCells (fallingBlock s) cs)
     /\ length cs = length (cells (fallingBlock s)))
  /\ (action = HoldBlock ->
      gameEnd s' = gameEnd s
      /\ placedBlocks s' = placedBlocks s
      /\ level s' = level s
      /\ linesCleared s' = linesCleared s
      /\ score s' = score s
      /\ highScore s' = highScore s).
Proof.
  intros Hstep.
  assert (Hsame : exists cs,
            s = withFallingBlock s (withCells (fallingBlock s) cs)
            /\ length cs = length (cells (fallingBlock s))).
  { exists (cells (fallingBlock s)).
    now rewrite withCells_same, withFallingBlock_same. }
  assert (Hmove : forall d, move d s = Ok s' ->
            exists cs,
              s' = withFallingBlock s (withCells (fallingBlock s) cs)
              /\ length cs = length (cells (fallingBlock s))).
  { intros d. unfold move.
    destruct (canMove d s) as [[|]|]; cbn [bind]; [| |discriminate];
      intros [= <-]; [|exact Hsame].
    eexists. split; [reflexivity|]. now rewrite length_fmap. }
  unfold reducer in Hstep.
  destruct (gameEnd s) eqn:Eg.
  - destruct (bool_decide_reflect (action = RestartGame)) as [->|Hne].
    + split; [intros [|[|]]; discriminate | discriminate].
    + injection Hstep as <-.
      split; [intros _; exact Hsame | intros _; repeat split; exact Eg].
  - split.
    + intros [-> | [-> | ->]]; cbn [applyAction] in Hstep; injection Hstep as Hstep.
      * now apply (Hmove DirLeft).
      * now apply (Hmove DirRight).
      * now apply rotateBlock_cells_only.
    + intros ->. rewrite <- Eg. eapply steering_frame; [|exact Hstep]. tauto.
Qed.

Lemma X18_steering_changes_cells_only_witness :
  exists s' cs,
    reducer 0 initialState MoveLeft = Some (Ok s')
    /\ s' = withFallingBlock initialState (withCells (fallingBlock initialState) cs).
Proof.
  destruct (reducer 0 initialState MoveLeft) as [[s'|f]|] eqn:E;
    [|vm_compute in E; discriminate E..].
  destruct (proj1 (X18_steering_changes_cells_only 0 initialState s' MoveLeft E)
              (or_introl eq_refl)) as (cs & Hs' & _).
  exists s', cs. split; [reflexivity | exact Hs'].
Defined.

(** ** Gravity and valid positions *)

Lemma isValidPosition_Forall (b : FallingBlock) (rows : Grid) :
  isValidPosition b rows = true
  <-> Forall (fun c => invalidCell rows c = false) (cells b).
Proof.
  unfold isValidPosition. rewrite Nat.eqb_eq.
  induction (cells b) as [|c cs IH]; [split; [constructor | reflexivity]|].
  cbn [List.filter]. rewrite Forall_cons.
  destruct (invalidCell rows c); cbn [length]; [split; [lia | intros [? _]; discriminate]|].
  rewrite IH. tauto.
Qed.

Lemma freeBelow_valid (rows : Grid) (c : Cell) :
  invalidCell rows c = false ->
  freeBelow rows c = true ->
  invalidCell rows (mkCell (x c) (y c + Block.HEIGHT)) = false.
Proof.
  unfold invalidCell, freeBelow. cbn [x y].
  destruct ((x c <? 0) || (x c >=? Viewport.CANVAS_WIDTH)); [discriminate|].
  destruct (Z.ltb_spec (y c) 0) as [|Hy0]; [discriminate|].
  change Block.HEIGHT with 20. cbn [orb].
  destruct (y c >=? Viewport.CANVAS_HEIGHT); [discriminate|]. intros _.
  destruct (Z.ltb_spec (y c + 20) Viewport.CANVAS_HEIGHT) as [Hlt|]; [|discriminate].
  destruct (Z.ltb_spec (y c + 20) 0); [lia|].
  destruct (Z.geb_spec (y c + 20) Viewport.CANVAS_HEIGHT); [lia|].
  cbn [orb andb]. now intros ->%negb_true_iff.
Qed.

Lemma descend_step (k : nat) (b : FallingBlock) :
  descend 1 (descend k b) = descend (S k) b.
Proof.
  unfold descend. cbn [cells withCells colour type].
  rewrite translate_translate. f_equal. f_equal; lia.
Qed.

(** One free step down leads from a valid position to a valid position. *)
Lemma descend_one_valid (s : State) (b : FallingBlock) :
  Forall (fun row => Constants.GRID_WIDTH <= Z.of_nat (length row)) (placedBlocks s) ->
  isValidPosition b (placedBlocks s) = true ->
  canMoveDown (withFallingBlock s b) = Ok true ->
  isValidPosition (descend 1 b) (placedBlocks s) = true.
Proof.
  intros Hrows Hvalid Hfree.
  pose proof (isValidPosition_onBoard _ _ Hvalid) as Hon.
  rewrite canMoveDown_spec in Hfree; cycle 1.
  { cbn [fallingBlock withFallingBlock]. eapply Forall_impl; [exact Hon|].
    now intros c [Hx _]. }
  { exact Hrows. }
  injection Hfree as Hfree. cbn [fallingBlock placedBlocks withFallingBlock] in Hfree.
  rewrite forallb_forall in Hfree.
  apply isValidPosition_Forall in Hvalid. apply isValidPosition_Forall.
  unfold descend, translate. cbn [cells withCells].
  rewrite Forall_fmap. rewrite Forall_forall in Hvalid. apply Forall_forall.
  intros c Hc. cbv beta. cbn [compose].
  replace (x c + 0) with (x c) by lia.
  change (Z.of_nat 1 * Block.HEIGHT) with Block.HEIGHT.
  apply freeBelow_valid; [now apply Hvalid | apply Hfree; now apply list_elem_of_In].
Qed.

(** X19. Gravity keeps a valid position valid.  If the falling block
    overlaps no placed cell and lies on the board, then so does the block
    one step further down whenever [canMoveDown] allows the step, and so
    does the ghost block: the position at which a hard drop locks the
    block holds no placed cell, so locking there overwrites nothing. *)
Theorem X19_gravity_keeps_position_valid (s : State) :
  Forall (fun row => Constants.GRID_WIDTH <= Z.of_nat (length row)) (placedBlocks s) ->
  isValidPosition (fallingBlock s) (placedBlocks s) = true ->
  (canMoveDown s = Ok true ->
   tick s = Ok (moveBlockDown s)
   /\ isValidPosition (fallingBlock (moveBlockDown s)) (placedBlocks s) = true)
  /\ (forall fuel ghost,
        getGhostBlockPosition fuel s = Some (Ok ghost) ->
        isValidPosition ghost (placedBlocks s) = true
        /\ Forall (fun c =>
                     forall cell,
                       gridCell (placedBlocks s) (y c / Block.HEIGHT) (x c / Block.WIDTH)
                       = Some cell ->
                       placed cell = false)
                  (cells ghost)).
Proof.
  intros Hrows Hvalid. split.
  - intros Hfree. split; [rewrite tick_canMoveDown, Hfree; reflexivity|].
    rewrite <- (withFallingBlock_same s) at 1. rewrite moveBlockDown_descend.
    cbn [fallingBlock withFallingBlock].
    apply descend_one_valid; [assumption..|now rewrite withFallingBlock_same].
  - intros fuel ghost Hghost. rewrite getGhostBlockPosition_unfold in Hghost.
    destruct (ghost_is_descent _ _ _ _ Hghost) as (k & -> & Hfree & _).
    assert (Hall : forall j : nat, (j <= k)%nat ->
              isValidPosition (descend j (fallingBlock s)) (placedBlocks s) = true).
    { intros j. induction j as [|j IH]; intros Hj.
      - now rewrite descend_zero.
      - rewrite <- descend_step. apply descend_one_valid; [assumption| |].
        + apply IH. lia.
        + apply Hfree. lia. }
    specialize (Hall k (Nat.le_refl k)). split; [exact Hall|].
    apply isValidPosition_Forall in Hall.
    eapply Forall_impl; [exact Hall|].
    intros c Hc cell. unfold gridCell. unfold invalidCell in Hc.
    destruct (_ || _); [discriminate|]. destruct (_ || _); [discriminate|].
    destruct (js_index (placedBlocks s) (y c / Block.HEIGHT)) as [row|]; [|discriminate].
    intros Hcell. rewrite Hcell in Hc. exact Hc.
Qed.

Lemma X19_gravity_keeps_position_valid_witness :
  tick initialState = Ok (moveBlockDown initialState)
  /\ isValidPosition (fallingBlock (moveBlockDown initialState))
       (placedBlocks initialState) = true.
Proof.
  apply (X19_gravity_keeps_position_valid initialState).
  - apply wellFormed_rows, wellFormed_initial.
  - reflexivity.
  - reflexivity.
Defined.

(** ** Spawning *)

(** X20. Every kind of block spawns as four distinct cells in the top two
    rows, in the four middle columns, at a position that is valid on the
    empty grid; and since each kind has a cell in the top row, a block that
    is locked at the height at which it spawned, wherever it was shifted
    sideways, ends the game. *)
Theorem X20_spawn_position (t : BlockType) :
  type (createFallingBlock t) = t
  /\ length (cells (createFallingBlock t)) = 4%nat
  /\ NoDup (cells (createFallingBlock t))
  /\ Forall (fun c => 3 <= x c / Block.WIDTH <= 6 /\ 0 <= y c / Block.HEIGHT <= 1)
            (cells (createFallingBlock t))
  /\ isValidPosition (createFallingBlock t) emptyGrid = true
  /\ (forall (s s' : State) (dx : Z),
        cells (fallingBlock s) = translate dx 0 (cells (createFallingBlock t)) ->
        handleBlockLocking s = Ok s' ->
        gameEnd s' = true).
Proof.
  split; [apply createFallingBlock_type|].
  split; [destruct t; reflexivity|].
  split; [destruct t; apply (bool_decide_unpack _); vm_compute; reflexivity|].
  split; [destruct t; repeat constructor; vm_compute; congruence|].
  split; [destruct t; vm_compute; reflexivity|].
  intros s s' dx Hcells Hlock. rewrite (lock_gameEnd _ _ Hlock), Hcells.
  destruct t; cbn; rewrite ?orb_true_r; reflexivity.
Qed.
